(** * CandleLoader: a shallow embedding of [src/candleLoader.js]

    The module is a JavaScript class that loads a candle model into a
    THREE.js scene, builds a two-cone flame and a point light above it,
    animates them, and tears everything down again.

    JavaScript objects are mutable and shared by reference: [this.candle]
    and an entry of [scene.children] are one object.  The embedding
    therefore keeps every scene-graph object in a store indexed by
    references, and every method of the class is a computation in a small
    state monad over that store.  Numbers are IEEE-754 binary64 values
    (Rocq's primitive [float]); [Math.sin], whose precision ECMAScript
    leaves to the implementation, is a parameter of the development. *)

From Stdlib Require Import Floats ZArith Bool.
From stdpp Require Import gmap list option strings.

Set Warnings "-inexact-float".
Set Default Proof Using "Type".

(** ** Numbers and vectors *)

(** A reference to a JavaScript object (its identity). *)
Abbreviation ref := positive.

Module Vector3.
Record t : Type := mk { x : float; y : float; z : float }.

(** [v.set(x, y, z)] overwrites the three components. *)
Definition set (x' y' z' : float) (_ : t) : t := mk x' y' z'.

(** [v.x = a] and [v.y = a]. *)
Definition setX (a : float) (v : t) : t := mk a (y v) (z v).
Definition setY (a : float) (v : t) : t := mk (x v) a (z v).
End Vector3.

Module Euler.
Record t : Type := mk { x : float; y : float; z : float }.

(** [e.y = a]. *)
Definition setY (a : float) (e : t) : t := mk (x e) a (z e).
End Euler.

(** ** The THREE.js objects the class touches *)

Inductive Geometry : Type :=
  | ConeGeometry (radius height : float) (radialSegments : Z)
  | BufferGeometry.

Module Material.
Record t : Type := mk {
  color : Z;
  transparent : bool;
  opacity : float;
  needsUpdate : bool
}.

Definition set_needsUpdate (b : bool) (m : t) : t :=
  mk (color m) (transparent m) (opacity m) b.
End Material.

(** [light.shadow.camera], reduced to the two planes the class writes. *)
Module LightShadow.
Record t : Type := mk { camera_near : float; camera_far : float }.

Definition set_camera_near (a : float) (s : t) : t := mk a (camera_far s).
Definition set_camera_far (a : float) (s : t) : t := mk (camera_near s) a.
End LightShadow.

(** One scene-graph object.  The fields are the properties of
    [THREE.Object3D] and of its subclasses [Mesh] and [PointLight] that
    the class reads or writes; a property an object does not have is
    [None]. *)
Record Object3D : Type := mkObject3D {
  isMesh : bool;
  parent : option ref;
  children : list ref;
  position : Vector3.t;
  rotation : Euler.t;
  scale : Vector3.t;
  castShadow : bool;
  receiveShadow : bool;
  geometry : option Geometry;
  material : option Material.t;
  color : option Z;
  intensity : option float;
  distance : option float;
  shadow : option LightShadow.t
}.

Definition set_parent (v : option ref) (o : Object3D) : Object3D :=
  mkObject3D (isMesh o) v (children o) (position o) (rotation o) (scale o)
    (castShadow o) (receiveShadow o) (geometry o) (material o) (color o)
    (intensity o) (distance o) (shadow o).

Definition upd_children (f : list ref → list ref) (o : Object3D) : Object3D :=
  mkObject3D (isMesh o) (parent o) (f (children o)) (position o) (rotation o)
    (scale o) (castShadow o) (receiveShadow o) (geometry o) (material o)
    (color o) (intensity o) (distance o) (shadow o).

Definition upd_position (f : Vector3.t → Vector3.t) (o : Object3D) : Object3D :=
  mkObject3D (isMesh o) (parent o) (children o) (f (position o)) (rotation o)
    (scale o) (castShadow o) (receiveShadow o) (geometry o) (material o)
    (color o) (intensity o) (distance o) (shadow o).

Definition upd_rotation (f : Euler.t → Euler.t) (o : Object3D) : Object3D :=
  mkObject3D (isMesh o) (parent o) (children o) (position o) (f (rotation o))
    (scale o) (castShadow o) (receiveShadow o) (geometry o) (material o)
    (color o) (intensity o) (distance o) (shadow o).

Definition upd_scale (f : Vector3.t → Vector3.t) (o : Object3D) : Object3D :=
  mkObject3D (isMesh o) (parent o) (children o) (position o) (rotation o)
    (f (scale o)) (castShadow o) (receiveShadow o) (geometry o) (material o)
    (color o) (intensity o) (distance o) (shadow o).

Definition set_castShadow (b : bool) (o : Object3D) : Object3D :=
  mkObject3D (isMesh o) (parent o) (children o) (position o) (rotation o)
    (scale o) b (receiveShadow o) (geometry o) (material o) (color o)
    (intensity o) (distance o) (shadow o).

Definition set_receiveShadow (b : bool) (o : Object3D) : Object3D :=
  mkObject3D (isMesh o) (parent o) (children o) (position o) (rotation o)
    (scale o) (castShadow o) b (geometry o) (material o) (color o)
    (intensity o) (distance o) (shadow o).

Definition set_material (m : option Material.t) (o : Object3D) : Object3D :=
  mkObject3D (isMesh o) (parent o) (children o) (position o) (rotation o)
    (scale o) (castShadow o) (receiveShadow o) (geometry o) m (color o)
    (intensity o) (distance o) (shadow o).

Definition set_intensity (a : float) (o : Object3D) : Object3D :=
  mkObject3D (isMesh o) (parent o) (children o) (position o) (rotation o)
    (scale o) (castShadow o) (receiveShadow o) (geometry o) (material o)
    (color o) (Some a) (distance o) (shadow o).

Definition set_shadow (s : option LightShadow.t) (o : Object3D) : Object3D :=
  mkObject3D (isMesh o) (parent o) (children o) (position o) (rotation o)
    (scale o) (castShadow o) (receiveShadow o) (geometry o) (material o)
    (color o) (intensity o) (distance o) s.

(** The constructors of THREE.js, with the library's defaults: an object
    starts detached, childless, at the origin, unrotated, at unit scale and
    casting no shadow. *)
Definition new_Object3D : Object3D :=
  mkObject3D false None []
    (Vector3.mk 0 0 0) (Euler.mk 0 0 0) (Vector3.mk 1 1 1)
    false false None None None None None None.

(** [new THREE.Group()]. *)
Definition new_Group : Object3D := new_Object3D.

(** [new THREE.Mesh(geometry, material)]. *)
Definition new_Mesh (g : Geometry) (m : Material.t) : Object3D :=
  mkObject3D true None []
    (Vector3.mk 0 0 0) (Euler.mk 0 0 0) (Vector3.mk 1 1 1)
    false false (Some g) (Some m) None None None None.

(** [new THREE.MeshBasicMaterial({color, transparent, opacity})]. *)
Definition new_MeshBasicMaterial (c : Z) (tr : bool) (op : float) : Material.t :=
  Material.mk c tr op false.

(** [new THREE.PointLight(color, intensity, distance)]; the shadow camera of
    a point light starts with near plane 0.5 and far plane 500. *)
Definition new_PointLight (c : Z) (i d : float) : Object3D :=
  mkObject3D false None []
    (Vector3.mk 0 0 0) (Euler.mk 0 0 0) (Vector3.mk 1 1 1)
    false false None None (Some c) (Some i) (Some d)
    (Some (LightShadow.mk 0.5 500)).

(** ** The controller and the world it runs in *)

(** The fields of a [CandleLoader] instance.  [mainFlame] and [innerFlame]
    do not exist until [createFlame] has run. *)
Record CandleLoader : Type := mkCandleLoader {
  scene : ref;
  candle : option ref;
  flame : option ref;
  flameLight : option ref;
  flameTime : float;
  mainFlame : option ref;
  innerFlame : option ref
}.

(** The five optional fields of the [options] argument of [loadCandle]. *)
Record Options : Type := mkOptions {
  opt_x : option float;
  opt_y : option float;
  opt_z : option float;
  opt_scale : option float;
  opt_rotation : option float
}.

(** The variables [x], [y], [z], [scale], [rotation] the callbacks of one
    [loadCandle] call close over. *)
Record Placement : Type := mkPlacement {
  pl_x : float;
  pl_y : float;
  pl_z : float;
  pl_scale : float;
  pl_rotation : float
}.

(** The value a load is rejected with. *)
Abbreviation Error := string.

Inductive PromiseState : Type :=
  | Pending
  | Fulfilled (value : ref)
  | Rejected (reason : Error).

(** One [loader.load] request: the path asked for, the closure of its
    callbacks and the promise [loadCandle] returned for it. *)
Record Request : Type := mkRequest {
  url : string;
  closure : Placement;
  promise : PromiseState
}.

Record World : Type := mkWorld {
  heap : gmap ref Object3D;
  this : CandleLoader;
  requests : gmap nat Request
}.

Definition set_heap (h : gmap ref Object3D) (w : World) : World :=
  mkWorld h (this w) (requests w).
Definition set_this (c : CandleLoader) (w : World) : World :=
  mkWorld (heap w) c (requests w).
Definition set_requests (q : gmap nat Request) (w : World) : World :=
  mkWorld (heap w) (this w) q.

(** ** The monad of methods

    A method either runs to completion, returning a value and the world it
    leaves, or does not complete: it dereferenced something that is not an
    object (a [TypeError] in JavaScript), or a traversal exhausted its
    recursion budget. *)
Definition M (A : Type) : Type := World → option (A * World).

#[global] Instance M_ret : MRet M := λ A a w, Some (a, w).
#[global] Instance M_bind : MBind M := λ A B k m w,
  match m w with
  | Some (a, w') => k a w'
  | None => None
  end.

Definition throw {A} : M A := λ _, None.
Definition get_this : M CandleLoader := λ w, Some (this w, w).
Definition put_this (c : CandleLoader) : M unit := λ w, Some (tt, set_this c w).

(** Reading a field that must hold an object: [null] and [undefined] have
    no properties. *)
Definition the {A} (v : option A) : M A :=
  match v with
  | Some a => mret a
  | None => throw
  end.

Definition deref (r : ref) : M Object3D := λ w,
  match heap w !! r with
  | Some o => Some (o, w)
  | None => None
  end.

(** An assignment to properties of the object [r]. *)
Definition modify (r : ref) (f : Object3D → Object3D) : M unit := λ w,
  match heap w !! r with
  | Some o => Some (tt, set_heap (<[r := f o]> (heap w)) w)
  | None => None
  end.

(** [new]: the object gets an identity no live object has. *)
Definition alloc (o : Object3D) : M ref := λ w,
  let r := fresh (dom (heap w)) in
  Some (r, set_heap (<[r := o]> (heap w)) w).

Fixpoint forM_ {A} (l : list A) (f : A → M unit) : M unit :=
  match l with
  | [] => mret tt
  | a :: l' => f a ;; forM_ l' f
  end.

(** ** The scene-graph operations of THREE.js the class calls *)

(** [children.splice(children.indexOf(c), 1)]: the first occurrence goes. *)
Fixpoint remove_first (c : ref) (l : list ref) : list ref :=
  match l with
  | [] => []
  | a :: l' => if decide (a = c) then l' else a :: remove_first c l'
  end.

(** [p.remove(c)]: when [c] is a child of [p], detach it. *)
Definition Object3D_remove (p c : ref) : M unit :=
  po ← deref p;
  if bool_decide (c ∈ children po) then
    modify c (set_parent None) ;;
    modify p (upd_children (remove_first c))
  else mret tt.

(** [p.add(c)]: an object cannot be added to itself; otherwise it leaves
    its current parent, if any, and becomes the last child of [p]. *)
Definition Object3D_add (p c : ref) : M unit :=
  if bool_decide (c = p) then mret tt
  else
    co ← deref c;
    match parent co with
    | Some q => Object3D_remove q c
    | None => mret tt
    end ;;
    modify c (set_parent (Some p)) ;;
    modify p (upd_children (λ l, l ++ [c])).

(** [r.traverse(callback)]: the callback runs on [r], then on every
    descendant, depth first.  [fuel] bounds the depth of the recursion. *)
Fixpoint Object3D_traverse (fuel : nat) (callback : ref → M unit) (r : ref)
    : M unit :=
  match fuel with
  | O => throw
  | S n =>
      callback r ;;
      o ← deref r;
      forM_ (children o) (Object3D_traverse n callback)
  end.

(** ** The class [CandleLoader] *)

Definition set_candle (v : option ref) (c : CandleLoader) : CandleLoader :=
  mkCandleLoader (scene c) v (flame c) (flameLight c) (flameTime c)
    (mainFlame c) (innerFlame c).
Definition set_flame (v : option ref) (c : CandleLoader) : CandleLoader :=
  mkCandleLoader (scene c) (candle c) v (flameLight c) (flameTime c)
    (mainFlame c) (innerFlame c).
Definition set_flameLight (v : option ref) (c : CandleLoader) : CandleLoader :=
  mkCandleLoader (scene c) (candle c) (flame c) v (flameTime c)
    (mainFlame c) (innerFlame c).
Definition set_flameTime (v : float) (c : CandleLoader) : CandleLoader :=
  mkCandleLoader (scene c) (candle c) (flame c) (flameLight c) v
    (mainFlame c) (innerFlame c).
Definition set_mainFlame (v : option ref) (c : CandleLoader) : CandleLoader :=
  mkCandleLoader (scene c) (candle c) (flame c) (flameLight c) (flameTime c)
    v (innerFlame c).
Definition set_innerFlame (v : option ref) (c : CandleLoader) : CandleLoader :=
  mkCandleLoader (scene c) (candle c) (flame c) (flameLight c) (flameTime c)
    (mainFlame c) v.

(** [this.field = v]. *)
Definition assign (f : CandleLoader → CandleLoader) : M unit :=
  c ← get_this; put_this (f c).

(** [this.field], where the code goes on to use it as an object. *)
Definition this_scene : M ref := c ← get_this; mret (scene c).
Definition this_candle : M ref := c ← get_this; the (candle c).
Definition this_flame : M ref := c ← get_this; the (flame c).
Definition this_flameLight : M ref := c ← get_this; the (flameLight c).

(** A field used as a condition: an object is truthy, [null] is not. *)
Definition truthy (v : option ref) : bool :=
  match v with
  | Some _ => true
  | None => false
  end.

(** [constructor(scene)]. *)
Definition constructor (scene : ref) : CandleLoader :=
  mkCandleLoader scene None None None 0 None None.

(** The destructuring of [options] with its defaults. *)
Definition placement (options : Options) : Placement :=
  mkPlacement
    (default 0%float (opt_x options))
    (default 0%float (opt_y options))
    (default 0%float (opt_z options))
    (default 0.1%float (opt_scale options))
    (default 0%float (opt_rotation options)).

(** [resolve(v)] and [reject(e)]: only a pending promise changes state. *)
Definition settle (id : nat) (s : PromiseState) : M unit := λ w,
  match requests w !! id with
  | Some rq =>
      match promise rq with
      | Pending =>
          let rq' := mkRequest (url rq) (closure rq) s in
          Some (tt, set_requests (<[id := rq']> (requests w)) w)
      | _ => Some (tt, w)
      end
  | None => None
  end.

(** [createFlame(x, y, z, candleScale)]. *)
Definition createFlame (x y z candleScale : float) : M unit :=
  g ← alloc new_Group;
  assign (set_flame (Some g)) ;;
  let flameGeometry := ConeGeometry 0.3 1.0 8 in
  let flameMaterial := new_MeshBasicMaterial 0xffa500 true 0.8 in
  mainFlame ← alloc (new_Mesh flameGeometry flameMaterial);
  modify mainFlame (upd_position (Vector3.setY 0.5)) ;;
  fl ← this_flame;
  Object3D_add fl mainFlame ;;
  let innerFlameGeometry := ConeGeometry 0.15 0.7 8 in
  let innerFlameMaterial := new_MeshBasicMaterial 0xffff00 true 0.9 in
  innerFlame ← alloc (new_Mesh innerFlameGeometry innerFlameMaterial);
  modify innerFlame (upd_position (Vector3.setY 0.4)) ;;
  fl ← this_flame;
  Object3D_add fl innerFlame ;;
  assign (set_mainFlame (Some mainFlame)) ;;
  assign (set_innerFlame (Some innerFlame)) ;;
  let flameHeight := (17 * candleScale)%float in
  fl ← this_flame;
  modify fl (upd_position (Vector3.set x (y + flameHeight) z)) ;;
  fl ← this_flame;
  modify fl (upd_scale (Vector3.set (candleScale * 2) (candleScale * 2)
                                    (candleScale * 2))) ;;
  sc ← this_scene;
  fl ← this_flame;
  Object3D_add sc fl ;;
  l ← alloc (new_PointLight 0xff6600 1.5 10);
  assign (set_flameLight (Some l)) ;;
  li ← this_flameLight;
  modify li (upd_position (Vector3.set x (y + flameHeight + 0.5) z)) ;;
  li ← this_flameLight;
  modify li (set_castShadow true) ;;
  li ← this_flameLight;
  lo ← deref li;
  sh ← the (shadow lo);
  modify li (set_shadow (Some (LightShadow.set_camera_near 0.1 sh))) ;;
  li ← this_flameLight;
  lo ← deref li;
  sh ← the (shadow lo);
  modify li (set_shadow (Some (LightShadow.set_camera_far 10 sh))) ;;
  sc ← this_scene;
  li ← this_flameLight;
  Object3D_add sc li.

(** The callback of [candle.traverse] in [loadCandle]. *)
Definition enableShadows (child : ref) : M unit :=
  o ← deref child;
  if isMesh o then
    modify child (set_castShadow true) ;;
    modify child (set_receiveShadow true) ;;
    o' ← deref child;
    match material o' with
    | Some m =>
        modify child (set_material (Some (Material.set_needsUpdate true m)))
    | None => mret tt
    end
  else mret tt.

(** The path of the model. *)
Definition candle_url : string :=
  "./low_poly_candle_charliesketch_sketchfab/scene.gltf".

(** [loadCandle(options)] up to the call of [loader.load]: the request is
    registered with the loader and its promise, still pending, is returned
    (as the key of the request). *)
Definition loadCandle (options : Options) : M nat := λ w,
  let id := fresh (dom (requests w)) in
  let rq := mkRequest candle_url (placement options) Pending in
  Some (id, set_requests (<[id := rq]> (requests w)) w).

(** The success callback, run by the loader with [gltf.scene]. *)
Definition onLoad (fuel : nat) (id : nat) (pl : Placement) (gltf_scene : ref)
    : M unit :=
  let x := pl_x pl in
  let y := pl_y pl in
  let z := pl_z pl in
  let scale := pl_scale pl in
  let rotation := pl_rotation pl in
  assign (set_candle (Some gltf_scene)) ;;
  c ← this_candle;
  modify c (upd_position (Vector3.set x y z)) ;;
  c ← this_candle;
  modify c (upd_scale (Vector3.set scale scale scale)) ;;
  c ← this_candle;
  modify c (upd_rotation (Euler.setY rotation)) ;;
  c ← this_candle;
  Object3D_traverse fuel enableShadows c ;;
  sc ← this_scene;
  c ← this_candle;
  Object3D_add sc c ;;
  createFlame x y z scale ;;
  c ← this_candle;
  settle id (Fulfilled c).

(** The progress callback only writes to the console. *)
Definition onProgress (loaded total : float) : M unit := mret tt.

(** The error callback. *)
Definition onError (id : nat) (error : Error) : M unit :=
  settle id (Rejected error).

(** What the loader may report for a request. *)
Inductive LoaderEvent : Type :=
  | Loaded (gltf_scene : ref)
  | Progress (loaded total : float)
  | Failed (error : Error).

Definition get_request (id : nat) : M Request := λ w,
  match requests w !! id with
  | Some rq => Some (rq, w)
  | None => None
  end.

(** The loader calling back into the closure of request [id]. *)
Definition loader_callback (fuel : nat) (id : nat) (ev : LoaderEvent)
    : M unit :=
  rq ← get_request id;
  match ev with
  | Loaded gltf_scene => onLoad fuel id (closure rq) gltf_scene
  | Progress loaded total => onProgress loaded total
  | Failed error => onError id error
  end.

(** [removeCandle()]. *)
Definition removeCandle : M unit :=
  self ← get_this;
  match candle self with
  | Some c =>
      sc ← this_scene;
      Object3D_remove sc c ;;
      assign (set_candle None)
  | None => mret tt
  end ;;
  self ← get_this;
  match flame self with
  | Some f =>
      sc ← this_scene;
      Object3D_remove sc f ;;
      assign (set_flame None)
  | None => mret tt
  end ;;
  self ← get_this;
  match flameLight self with
  | Some l =>
      sc ← this_scene;
      Object3D_remove sc l ;;
      assign (set_flameLight None)
  | None => mret tt
  end.

(** [updatePosition(x, y, z)]. *)
Definition updatePosition (x y z : float) : M unit :=
  self ← get_this;
  match candle self with
  | Some c => modify c (upd_position (Vector3.set x y z))
  | None => mret tt
  end.

Section Animation.

(** [Math.sin]. *)
Variable Math_sin : float → float.

(** The sum of the three flicker terms at elapsed time [t]. *)
Definition flicker_at (t : float) : float :=
  (Math_sin (t * 8) * 0.03 + Math_sin (t * 12.5) * 0.02
   + Math_sin (t * 20) * 0.015)%float.

(** [animate(deltaTime)]; [None] is a call without the argument. *)
Definition animate (deltaTime : option float) : M unit :=
  let deltaTime := default 0.016%float deltaTime in
  self ← get_this;
  if negb (truthy (flame self)) || negb (truthy (flameLight self))
  then mret tt
  else
    assign (λ c, set_flameTime (flameTime c + deltaTime) c) ;;
    self ← get_this;
    let flicker1 := (Math_sin (flameTime self * 8) * 0.03)%float in
    let flicker2 := (Math_sin (flameTime self * 12.5) * 0.02)%float in
    let flicker3 := (Math_sin (flameTime self * 20) * 0.015)%float in
    let totalFlicker := (flicker1 + flicker2 + flicker3)%float in
    match mainFlame self with
    | Some m =>
        let scaleVar := (1.0 + totalFlicker)%float in
        modify m (upd_scale (Vector3.set scaleVar scaleVar scaleVar)) ;;
        modify m (upd_position
                    (Vector3.setX (Math_sin (flameTime self * 5) * 0.02)))
    | None => mret tt
    end ;;
    match innerFlame self with
    | Some i =>
        let innerScale := (1.0 + totalFlicker * 1.2)%float in
        modify i (upd_scale (Vector3.set innerScale innerScale innerScale)) ;;
        modify i (upd_position
                    (Vector3.setX (Math_sin (flameTime self * 6) * 0.015)))
    | None => mret tt
    end ;;
    match flameLight self with
    | Some l =>
        modify l (set_intensity (1.5 + totalFlicker * 2)) ;;
        lo ← deref l;
        let lightBaseY := Vector3.y (position lo) in
        modify l (upd_position
                    (Vector3.setY (lightBaseY + totalFlicker * 0.1)))
    | None => mret tt
    end.

End Animation.

(** ** The transition system of one controller

    The host calls the four public methods; the loader calls back; and the
    rest of the program (the loader parsing a file, for one) creates
    objects of its own. *)

Inductive Call : Type :=
  | CallLoadCandle (options : Options)
  | CallLoader (fuel : nat) (id : nat) (ev : LoaderEvent)
  | CallUpdatePosition (x y z : float)
  | CallAnimate (deltaTime : option float)
  | CallRemoveCandle.

Definition run_call (Math_sin : float → float) (c : Call) : M unit :=
  match c with
  | CallLoadCandle options => loadCandle options ;; mret tt
  | CallLoader fuel id ev => loader_callback fuel id ev
  | CallUpdatePosition x y z => updatePosition x y z
  | CallAnimate deltaTime => animate Math_sin deltaTime
  | CallRemoveCandle => removeCandle
  end.

Fixpoint run_calls (Math_sin : float → float) (cs : list Call) : M unit :=
  match cs with
  | [] => mret tt
  | c :: cs' => run_call Math_sin c ;; run_calls Math_sin cs'
  end.

(** The world right after [new CandleLoader(scene)], where [scene] is an
    object of the store [h]. *)
Definition initial (h : gmap ref Object3D) (sc : ref) : World :=
  mkWorld h (constructor sc) ∅.

Inductive reachable (Math_sin : float → float) : World → Prop :=
  | reach_initial h sc :
      is_Some (h !! sc) →
      reachable Math_sin (initial h sc)
  | reach_call w c w' :
      reachable Math_sin w →
      run_call Math_sin c w = Some (tt, w') →
      reachable Math_sin w'
  | reach_environment w h' :
      reachable Math_sin w →
      heap w ⊆ h' →
      reachable Math_sin (set_heap h' w).

(** ** Views of the store *)

(** The transform of an object. *)
Definition transform (o : Object3D) : Vector3.t * Euler.t * Vector3.t :=
  (position o, rotation o, scale o).

(** Its place in the scene graph and its transform. *)
Definition placing (o : Object3D)
    : option ref * list ref * (Vector3.t * Euler.t * Vector3.t) :=
  (parent o, children o, transform o).

(** Its place in the scene graph alone. *)
Definition links (o : Object3D) : option ref * list ref :=
  (parent o, children o).

(** Two worlds agree on a view [π] of every object, on the controller and on
    the requests. *)
Definition agree {X} (π : Object3D → X) (w w' : World) : Prop :=
  this w' = this w ∧ requests w' = requests w ∧
  ∀ q, π <$> heap w' !! q = π <$> heap w !! q.

(** The recursion depth a traversal from [r] needs is at most [n]: the
    objects below [r] are live and form a graph without cycles. *)
Fixpoint depth_le (n : nat) (h : gmap ref Object3D) (r : ref) : Prop :=
  match n with
  | O => False
  | S n' => ∃ o, h !! r = Some o ∧ Forall (depth_le n' h) (children o)
  end.

(** What the loader hands to the success callback: a live, detached root
    over live, acyclic descendants. *)
Definition asset_ok (fuel : nat) (h : gmap ref Object3D) (r : ref) : Prop :=
  depth_le fuel h r ∧ ∃ o, h !! r = Some o ∧ parent o = None.

(** The controller's references while a candle is loaded. *)
Definition loaded (w : World) (c g m i l : ref) : Prop :=
  candle (this w) = Some c ∧ flame (this w) = Some g ∧
  mainFlame (this w) = Some m ∧ innerFlame (this w) = Some i ∧
  flameLight (this w) = Some l ∧
  NoDup [c; g; m; i; l] ∧
  Forall (λ r, is_Some (heap w !! r)) [c; g; m; i; l].

(** The controller's references while it holds nothing. *)
Definition nothing_loaded (w : World) : Prop :=
  candle (this w) = None ∧ flame (this w) = None ∧ flameLight (this w) = None.

(** The invariant of the transition system: the scene is a live object, and
    the controller holds either nothing or a candle, a flame group with its
    two cones and a light, all live and all different objects. *)
Definition inv (w : World) : Prop :=
  is_Some (heap w !! scene (this w)) ∧
  (nothing_loaded w ∨ ∃ c g m i l, loaded w c g m i l).

(** The two methods that only move or animate what is loaded. *)
Definition animate_or_updatePosition (c : Call) : Prop :=
  match c with
  | CallAnimate _ | CallUpdatePosition _ _ _ => True
  | _ => False
  end.

(** ** A small scene

    A scene (object 1) and, as the loader would leave it after parsing the
    file, a detached model: a root (object 2) over one mesh (object 3). *)

Definition example_scene : ref := 1%positive.
Definition example_root : ref := 2%positive.
Definition example_mesh : ref := 3%positive.

Definition example_heap : gmap ref Object3D :=
  <[example_mesh :=
      set_parent (Some example_root)
        (new_Mesh BufferGeometry (new_MeshBasicMaterial 0xffffff false 1))]>
    (<[example_root := upd_children (λ _, [example_mesh]) new_Group]>
       (<[example_scene := new_Object3D]> ∅)).

Definition example_world : World := initial example_heap example_scene.

(** [{x: 1, y: 0, z: 2, scale: 0.2, rotation: 1.5708}]. *)
Definition example_options : Options :=
  mkOptions (Some 1%float) (Some 0%float) (Some 2%float) (Some 0.2%float)
    (Some 1.5708%float).

(** A stand-in for [Math.sin]: the first two terms of its series. *)
Definition example_sin (a : float) : float := (a - a * a * a / 6)%float.

Definition example_run (cs : list Call) (w : World) : World :=
  match run_calls example_sin cs w with
  | Some (_, w') => w'
  | None => w
  end.

(** After [loadCandle(example_options)]: request 0 is pending. *)
Definition example_requested : World :=
  example_run [CallLoadCandle example_options] example_world.

(** After the loader has delivered the model. *)
Definition example_loaded : World :=
  example_run [CallLoader 2 0 (Loaded example_root)] example_requested.

(** After half a second of animation. *)
Definition example_animated : World :=
  example_run [CallAnimate (Some 0.5%float)] example_loaded.

(** After [removeCandle()]. *)
Definition example_removed : World :=
  example_run [CallRemoveCandle] example_animated.

(** After a second [loadCandle(example_options)]: request 1 is pending. *)
Definition example_requested_again : World :=
  example_run [CallLoadCandle example_options] example_removed.

(** After the loader has delivered the model again, and after a quarter of
    a second of animation. *)
Definition example_reloaded : World :=
  example_run [CallLoader 2 1 (Loaded example_root)] example_requested_again.
Definition example_reanimated : World :=
  example_run [CallAnimate (Some 0.25%float)] example_reloaded.

(** * Verification *)

(** ** Binary64 multiplication commutes *)

Lemma float_mul_comm (a b : float) : (a * b = b * a)%float.
Proof.
  apply Prim2SF_inj. rewrite !mul_spec. unfold SF64mul, SFmul.
  destruct (Prim2SF a) as [s|s| |s m e], (Prim2SF b) as [s'|s'| |s' m' e'];
    rewrite 1?(xorb_comm s s'); try reflexivity.
  by rewrite Pos.mul_comm, Z.add_comm.
Qed.

(** ** Running the monad *)

Lemma bind_run {A B} (m : M A) (k : A → M B) w a w1 :
  m w = Some (a, w1) → (m ≫= k) w = k a w1.
Proof. unfold mbind, M_bind. by intros ->. Qed.

Lemma bind_inv {A B} (m : M A) (k : A → M B) w b w2 :
  (m ≫= k) w = Some (b, w2) →
  ∃ a w1, m w = Some (a, w1) ∧ k a w1 = Some (b, w2).
Proof.
  unfold mbind, M_bind. destruct (m w) as [[a w1]|]; [eauto | done].
Qed.

Lemma bind_assoc {A B C} (m : M A) (k : A → M B) (k' : B → M C) w :
  ((m ≫= k) ≫= k') w = (m ≫= λ a, k a ≫= k') w.
Proof. unfold mbind, M_bind. by destruct (m w) as [[a w1]|]. Qed.

Lemma ret_inv {A} (a b : A) (w w' : World) :
  (mret a : M A) w = Some (b, w') → a = b ∧ w = w'.
Proof. by intros [= -> ->]. Qed.

Lemma the_inv {A} (v : option A) a w w' :
  the v w = Some (a, w') → v = Some a ∧ w' = w.
Proof. destruct v; [by intros [= -> ->] | done]. Qed.

Lemma deref_inv r o w w' :
  deref r w = Some (o, w') → heap w !! r = Some o ∧ w' = w.
Proof. unfold deref. destruct (heap w !! r); [by intros [= -> ->] | done]. Qed.

Lemma deref_run r o w : heap w !! r = Some o → deref r w = Some (o, w).
Proof. unfold deref. by intros ->. Qed.

Lemma modify_inv r f u w w' :
  modify r f w = Some (u, w') →
  ∃ o, heap w !! r = Some o ∧ w' = set_heap (<[r := f o]> (heap w)) w.
Proof.
  unfold modify. destruct (heap w !! r) as [o|]; [|done].
  intros [= _ <-]. eauto.
Qed.

Lemma modify_run r f o w :
  heap w !! r = Some o →
  modify r f w = Some (tt, set_heap (<[r := f o]> (heap w)) w).
Proof. unfold modify. by intros ->. Qed.

Lemma assign_inv f u w w' :
  assign f w = Some (u, w') → w' = set_this (f (this w)) w.
Proof. by intros [= _ <-]. Qed.

Lemma get_this_inv c w w' : get_this w = Some (c, w') → c = this w ∧ w' = w.
Proof. by intros [= <- <-]. Qed.

Lemma this_scene_inv r w w' :
  this_scene w = Some (r, w') → r = scene (this w) ∧ w' = w.
Proof. by intros [= <- <-]. Qed.

Lemma this_candle_inv r w w' :
  this_candle w = Some (r, w') → candle (this w) = Some r ∧ w' = w.
Proof.
  intros H. apply bind_inv in H as (c & w1 & [-> ->]%get_this_inv & H).
  by apply the_inv in H.
Qed.

Lemma fresh_not_live (h : gmap ref Object3D) : h !! fresh (dom h) = None.
Proof. apply not_elem_of_dom, is_fresh. Qed.

(** Decomposing a run of a sequence of statements into its steps. *)
Ltac minv H :=
  repeat match type of H with
  | (_ ≫= _) _ = Some _ =>
      let a := fresh "a" in let w := fresh "w" in let H1 := fresh "Hs" in
      apply bind_inv in H as (a & w & H1 & H);
      first
        [ apply this_candle_inv in H1 as [H1 ->]
        | apply this_scene_inv in H1 as [-> ->]
        | apply get_this_inv in H1 as [-> ->]
        | apply assign_inv in H1 as ->
        | apply the_inv in H1 as [H1 ->]
        | apply deref_inv in H1 as [H1 ->]
        | idtac ];
      cbv beta in H
  end.

(** ** Agreement of worlds *)

Section Agree.
Context {X : Type} (π : Object3D → X).

Lemma agree_refl w : agree π w w.
Proof. by repeat split. Qed.

Lemma agree_trans w1 w2 w3 : agree π w1 w2 → agree π w2 w3 → agree π w1 w3.
Proof.
  intros (E1 & E2 & H12) (E3 & E4 & H23).
  split; [by rewrite E3|]. split; [by rewrite E4|].
  intros q. by rewrite H23.
Qed.

Lemma agree_live w w' q : agree π w w' →
  is_Some (heap w' !! q) ↔ is_Some (heap w !! q).
Proof.
  intros (_ & _ & H). rewrite <-!(fmap_is_Some π). by rewrite H.
Qed.

(** An assignment to properties outside the view. *)
Lemma modify_agree r f u w w' :
  modify r f w = Some (u, w') →
  (∀ o, π (f o) = π o) → agree π w w'.
Proof.
  intros (o & Ho & ->)%modify_inv Hf. repeat split. intros q. cbn.
  destruct (decide (r = q)) as [->|].
  - rewrite lookup_insert_eq, Ho. cbn. by rewrite Hf.
  - by rewrite lookup_insert_ne.
Qed.
End Agree.

Lemma agree_weaken {X Y} (π : Object3D → X) (ρ : X → Y) w w' :
  agree π w w' → agree (ρ ∘ π) w w'.
Proof.
  intros (? & ? & H). repeat split; [done..|]. intros q.
  by rewrite !(option_fmap_compose π ρ), H.
Qed.

Lemma agree_placing_transform w w' :
  agree placing w w' → agree transform w w'.
Proof. intros H. by apply (agree_weaken placing snd) in H. Qed.

(** ** The scene-graph operations leave transforms alone *)

Lemma ret_agree {X} (π : Object3D → X) (u u' : unit) w w' :
  (mret u : M unit) w = Some (u', w') → agree π w w'.
Proof. intros [_ <-]%ret_inv. apply agree_refl. Qed.

Lemma Object3D_remove_agree p c u w w' :
  Object3D_remove p c w = Some (u, w') → agree transform w w'.
Proof.
  unfold Object3D_remove. intros H. minv H.
  destruct (bool_decide _); [|by eapply ret_agree].
  minv H.
  apply (modify_agree transform) in Hs0; [|done].
  apply (modify_agree transform) in H; [|done].
  by eapply agree_trans.
Qed.

Lemma Object3D_add_agree p c u w w' :
  Object3D_add p c w = Some (u, w') → agree transform w w'.
Proof.
  unfold Object3D_add. intros H.
  destruct (bool_decide _); [by eapply ret_agree|].
  minv H.
  apply (modify_agree transform) in Hs1; [|done].
  apply (modify_agree transform) in H; [|done].
  assert (agree transform w w0).
  { destruct (parent a); [by eapply Object3D_remove_agree|by eapply ret_agree]. }
  eauto using agree_trans.
Qed.

(** When [p.add(c)] completes on a live [c], [p] is live too. *)
Lemma Object3D_add_live p c u w w' :
  Object3D_add p c w = Some (u, w') →
  is_Some (heap w !! c) → is_Some (heap w !! p).
Proof.
  unfold Object3D_add. intros H Hc. case_bool_decide as E; [by subst|].
  minv H. apply modify_inv in H as (o & Ho & _).
  apply (modify_agree transform) in Hs1; [|done].
  assert (agree transform w w0) as Hag.
  { destruct (parent a); [by eapply Object3D_remove_agree|by eapply ret_agree]. }
  apply (agree_live _ _ _ p) in Hag. apply (agree_live _ _ _ p) in Hs1.
  apply Hag, Hs1. eauto.
Qed.

Lemma enableShadows_agree child u w w' :
  enableShadows child w = Some (u, w') → agree placing w w'.
Proof.
  unfold enableShadows. intros H. minv H.
  destruct (isMesh a); [|by eapply ret_agree].
  minv H.
  apply (modify_agree placing) in Hs0; [|done].
  apply (modify_agree placing) in Hs1; [|done].
  assert (agree placing w1 w').
  { destruct (material a2); [|by eapply ret_agree].
    by apply (modify_agree placing) in H. }
  eauto using agree_trans.
Qed.

Lemma forM__agree {A X} (π : Object3D → X) (f : A → M unit) l u w w' :
  (∀ a u w w', f a w = Some (u, w') → agree π w w') →
  forM_ l f w = Some (u, w') → agree π w w'.
Proof.
  intros Hf. revert w. induction l as [|a l IH]; intros w H; cbn in H.
  - by eapply ret_agree.
  - minv H. eapply agree_trans; eauto.
Qed.

Lemma Object3D_traverse_agree {X} (π : Object3D → X) fuel callback r u w w' :
  (∀ a u w w', callback a w = Some (u, w') → agree π w w') →
  Object3D_traverse fuel callback r w = Some (u, w') → agree π w w'.
Proof.
  intros Hcb. revert r u w w'.
  induction fuel as [|n IH]; intros r u w w' H; [done|].
  cbn in H. minv H. eapply agree_trans; [by eapply Hcb|].
  eapply forM__agree; [|done]. eauto.
Qed.

(** ** The scene-graph operations complete on a well-formed graph *)

Lemma agree_placing_links w w' : agree placing w w' → agree links w w'.
Proof. intros H. by apply (agree_weaken placing fst) in H. Qed.

Lemma agree_lookup {X} (π : Object3D → X) w w' q o :
  agree π w w' → heap w !! q = Some o →
  ∃ o', heap w' !! q = Some o' ∧ π o' = π o.
Proof.
  intros (_ & _ & Hag) Ho. specialize (Hag q). rewrite Ho in Hag.
  destruct (heap w' !! q) as [o'|]; [|done]. injection Hag as Hag. eauto.
Qed.

Lemma depth_le_agree n w w' r :
  agree links w w' → depth_le n (heap w) r → depth_le n (heap w') r.
Proof.
  intros Hag. revert r.
  induction n as [|n IH]; intros r; [done|]. cbn.
  intros (o & Ho & Hch).
  destruct (agree_lookup _ _ _ _ _ Hag Ho) as (o' & Ho' & [= _ Hc]).
  exists o'. split; [done|].
  rewrite Hc. eapply Forall_impl; [done|]. auto.
Qed.

Lemma depth_le_live n h r : depth_le n h r → is_Some (h !! r).
Proof. destruct n; [done|]. intros (o & Ho & _). eauto. Qed.

Lemma enableShadows_succeeds child w :
  is_Some (heap w !! child) → ∃ w', enableShadows child w = Some (tt, w').
Proof.
  intros [o Ho]. unfold enableShadows.
  erewrite bind_run by by apply deref_run.
  destruct (isMesh o); [|by eexists].
  erewrite bind_run by by apply modify_run.
  erewrite bind_run by (apply modify_run; cbn; apply lookup_insert_eq).
  erewrite bind_run by (apply deref_run; cbn; apply lookup_insert_eq).
  cbn. destruct (material o); [|by eexists].
  erewrite modify_run by (cbn; apply lookup_insert_eq). by eexists.
Qed.

Lemma Object3D_traverse_succeeds fuel r w :
  depth_le fuel (heap w) r →
  ∃ w', Object3D_traverse fuel enableShadows r w = Some (tt, w').
Proof.
  revert r w. induction fuel as [|n IH]; intros r w Hd; [done|].
  cbn [Object3D_traverse].
  pose proof (depth_le_live _ _ _ Hd) as Hl.
  destruct (enableShadows_succeeds r w Hl) as [w1 Hw1].
  erewrite bind_run by done.
  apply enableShadows_agree, agree_placing_links in Hw1.
  apply (depth_le_agree _ _ _ _ Hw1) in Hd as (o & Ho & Hch).
  erewrite bind_run by by apply deref_run.
  clear Ho Hw1 Hl. revert w1 Hch.
  induction (children o) as [|c l IHl]; intros v Hch; cbn; [by eexists|].
  apply Forall_cons in Hch as [Hc Hl].
  destruct (IH c v Hc) as [w2 Hw2]. erewrite bind_run by done.
  apply IHl. eapply Forall_impl; [done|]. intros q.
  apply depth_le_agree, agree_placing_links.
  eapply Object3D_traverse_agree; [|done]. apply @enableShadows_agree.
Qed.

Lemma Object3D_add_succeeds p c po co w :
  heap w !! p = Some po → heap w !! c = Some co → parent co = None →
  ∃ w', Object3D_add p c w = Some (tt, w').
Proof.
  intros Hp Hc Hpar. unfold Object3D_add.
  case_bool_decide; [by eexists|].
  erewrite bind_run by by apply deref_run.
  rewrite Hpar. erewrite bind_run by done.
  erewrite bind_run by by apply modify_run.
  erewrite modify_run; [by eexists|].
  cbn. by rewrite lookup_insert_ne.
Qed.

(** ** Symbolic execution of straight-line code *)

Lemma Object3D_add_run p c po co w :
  c ≠ p → heap w !! p = Some po → heap w !! c = Some co → parent co = None →
  Object3D_add p c w =
    Some (tt, set_heap (<[p := upd_children (λ l, l ++ [c]) po]>
                          (<[c := set_parent (Some p) co]> (heap w))) w).
Proof.
  intros Hne Hp Hc Hpar. unfold Object3D_add.
  rewrite bool_decide_eq_false_2 by done.
  erewrite bind_run by by apply deref_run.
  rewrite Hpar. erewrite bind_run by done.
  erewrite bind_run by by apply modify_run.
  erewrite modify_run; [done|].
  cbn. by rewrite lookup_insert_ne.
Qed.

Ltac wsimpl :=
  cbv [set_heap set_this set_requests set_candle set_flame set_flameLight
       set_flameTime set_mainFlame set_innerFlame];
  cbn [heap this requests
       scene candle flame flameLight flameTime mainFlame innerFlame].

Ltac wsimpl_in H :=
  cbv [set_heap set_this set_requests set_candle set_flame set_flameLight
       set_flameTime set_mainFlame set_innerFlame] in H;
  cbn [heap this requests
       scene candle flame flameLight flameTime mainFlame innerFlame] in H.

Ltac neq := first [assumption | by apply not_eq_sym].

(** Looking an object up in a store built by assignments. *)
Ltac lookup_rw :=
  repeat first [rewrite lookup_insert_eq | rewrite lookup_insert_ne by neq].
Ltac lookup := wsimpl; lookup_rw; first [reflexivity | eassumption].

Ltac run1 :=
  lazymatch goal with
  | |- modify _ _ _ = _ => apply modify_run; lookup
  | |- deref _ _ = _ => apply deref_run; lookup
  | |- Object3D_add _ _ _ = _ =>
      eapply Object3D_add_run; [ neq | lookup | lookup | reflexivity ]
  | |- alloc _ _ = _ => fail
  | |- _ => reflexivity
  end.

(** One statement of a run [E : (stmt ≫= rest) w = res]. *)
Ltac mstep E :=
  rewrite ?bind_assoc in E;
  erewrite bind_run in E by run1; wsimpl_in E;
  rewrite ?insert_insert_eq in E.

(** A [new]: the object is named [r]; [Hr] and the disequalities that come
    with it say that it is none of the live objects. *)
Ltac mnew E r Hr :=
  match type of E with
  | (alloc _ ≫= _) (mkWorld ?h _ _) = _ =>
      pose proof (fresh_not_live h) as Hr;
      erewrite bind_run in E by reflexivity; wsimpl_in E;
      generalize dependent (fresh (dom h)); intros r Hr E;
      repeat (let Hn := fresh "Hne" in
              apply lookup_insert_None in Hr as [Hr Hn])
  end.

(** ** [createFlame] *)

(** What [createFlame] builds, object by object: the group over its two
    cones, the light, both appended to the children of the scene, and
    nothing else touched. *)
Lemma createFlame_run x y z s w sco :
  heap w !! scene (this w) = Some sco →
  ∃ w' g m i l,
    createFlame x y z s w = Some (tt, w') ∧
    this w' = mkCandleLoader (scene (this w)) (candle (this w)) (Some g)
                (Some l) (flameTime (this w)) (Some m) (Some i) ∧
    requests w' = requests w ∧
    NoDup [g; m; i; l] ∧
    Forall (λ r, heap w !! r = None) [g; m; i; l] ∧
    heap w' !! g =
      Some (set_parent (Some (scene (this w)))
              (upd_scale (Vector3.set (s * 2) (s * 2) (s * 2))
                 (upd_position (Vector3.set x (y + 17 * s) z)
                    (upd_children (λ _, [m; i]) new_Group)))) ∧
    heap w' !! m =
      Some (set_parent (Some g)
              (upd_position (Vector3.setY 0.5)
                 (new_Mesh (ConeGeometry 0.3 1.0 8)
                    (new_MeshBasicMaterial 0xffa500 true 0.8)))) ∧
    heap w' !! i =
      Some (set_parent (Some g)
              (upd_position (Vector3.setY 0.4)
                 (new_Mesh (ConeGeometry 0.15 0.7 8)
                    (new_MeshBasicMaterial 0xffff00 true 0.9)))) ∧
    heap w' !! l =
      Some (set_parent (Some (scene (this w)))
              (set_shadow (Some (LightShadow.mk 0.1 10))
                 (set_castShadow true
                    (upd_position (Vector3.set x (y + 17 * s + 0.5) z)
                       (new_PointLight 0xff6600 1.5 10))))) ∧
    heap w' !! scene (this w) =
      Some (upd_children (λ cs, cs ++ [g; l]) sco) ∧
    (∀ q, is_Some (heap w !! q) → q ≠ scene (this w) →
          heap w' !! q = heap w !! q).
Proof.
  intros Hsc. remember (createFlame x y z s w) as res eqn:E.
  symmetry in E. unfold createFlame in E.
  destruct w as [h c q]; wsimpl_in E; wsimpl_in Hsc.
  mnew E g Hg. assert (g ≠ scene c) by congruence.
  repeat mstep E.
  mnew E m Hm. assert (m ≠ scene c) by congruence.
  repeat mstep E.
  mnew E i Hi. assert (i ≠ scene c) by congruence.
  repeat mstep E.
  mnew E l Hl. assert (l ≠ scene c) by congruence.
  repeat mstep E.
  erewrite Object3D_add_run in E; [| neq | lookup | lookup | reflexivity ].
  wsimpl_in E. rewrite ?insert_insert_eq in E.
  subst res. eexists _, g, m, i, l. split; [reflexivity|]. wsimpl.
  split; [reflexivity|]. split; [reflexivity|].
  split.
  { repeat (apply NoDup_cons; split;
              [rewrite ?not_elem_of_cons; repeat split;
               first [neq | apply not_elem_of_nil]|]).
    apply NoDup_nil_2. }
  split. { by repeat constructor. }
  do 4 (split; [by lookup_rw|]).
  split.
  { lookup_rw. unfold upd_children. cbn. by rewrite <-app_assoc. }
  intros r [o Ho] Hr.
  assert (g ≠ r ∧ m ≠ r ∧ i ≠ r ∧ l ≠ r) as (? & ? & ? & ?)
    by (repeat split; congruence).
  by rewrite !lookup_insert_ne by done.
Qed.

Lemma createFlame_spec x y z s w :
  is_Some (heap w !! scene (this w)) →
  ∃ w' g m i l,
    createFlame x y z s w = Some (tt, w') ∧
    this w' = mkCandleLoader (scene (this w)) (candle (this w)) (Some g)
                (Some l) (flameTime (this w)) (Some m) (Some i) ∧
    requests w' = requests w ∧
    NoDup [g; m; i; l] ∧
    Forall (λ r, heap w !! r = None) [g; m; i; l] ∧
    Forall (λ r, is_Some (heap w' !! r)) [g; m; i; l] ∧
    (∀ q, is_Some (heap w !! q) →
          transform <$> heap w' !! q = transform <$> heap w !! q) ∧
    transform <$> heap w' !! g =
      Some (Vector3.mk x (y + 17 * s) z, Euler.mk 0 0 0,
            Vector3.mk (s * 2) (s * 2) (s * 2)) ∧
    transform <$> heap w' !! l =
      Some (Vector3.mk x (y + 17 * s + 0.5) z, Euler.mk 0 0 0,
            Vector3.mk 1 1 1).
Proof.
  intros [sco Hsc].
  destruct (createFlame_run x y z s w sco Hsc)
    as (w' & g & m & i & l & Hrun & Et & Eq & Hnd & Hfresh & Hg & Hm & Hi
        & Hl & Hs & Hframe).
  exists w', g, m, i, l. do 5 (split; [done|]).
  split. { repeat constructor; eauto. }
  split.
  { intros q Hq. destruct (decide (q = scene (this w))) as [->|Hne].
    - by rewrite Hs, Hsc.
    - by rewrite Hframe. }
  by rewrite Hg, Hl.
Qed.

(** ** Promises *)

Lemma settle_inv id s u w w' :
  settle id s w = Some (u, w') →
  heap w' = heap w ∧ this w' = this w ∧
  ∃ rq, requests w !! id = Some rq ∧
    requests w' = match promise rq with
                  | Pending => <[id := mkRequest (url rq) (closure rq) s]> (requests w)
                  | _ => requests w
                  end.
Proof.
  unfold settle. destruct (requests w !! id) as [rq|]; [|done].
  destruct (promise rq) eqn:Hp; intros [= _ <-]; repeat split; eexists;
    by rewrite Hp.
Qed.

Lemma get_request_inv id rq w w' :
  get_request id w = Some (rq, w') → requests w !! id = Some rq ∧ w' = w.
Proof.
  unfold get_request. destruct (requests w !! id); [|done].
  by intros [= -> ->].
Qed.

(** ** The success callback *)

(** The stages of the success callback. *)
Lemma onLoad_inv fuel id pl r u w w' :
  onLoad fuel id pl r w = Some (u, w') →
  ∃ o w3 w4 w5 c5,
    heap w !! r = Some o ∧
    agree placing
      (mkWorld
         (<[r := upd_rotation (Euler.setY (pl_rotation pl))
                   (upd_scale (Vector3.set (pl_scale pl) (pl_scale pl)
                                           (pl_scale pl))
                      (upd_position
                         (Vector3.set (pl_x pl) (pl_y pl) (pl_z pl)) o))]>
            (heap w))
         (set_candle (Some r) (this w)) (requests w))
      w3 ∧
    Object3D_add (scene (this w)) r w3 = Some (tt, w4) ∧
    createFlame (pl_x pl) (pl_y pl) (pl_z pl) (pl_scale pl) w4
      = Some (tt, w5) ∧
    candle (this w5) = Some c5 ∧
    settle id (Fulfilled c5) w5 = Some (u, w').
Proof.
  unfold onLoad. intros H. minv H.
  destruct w as [h c q]. wsimpl_in Hs. injection Hs as <-.
  apply modify_inv in Hs0 as (o & Ho & ->). wsimpl_in Ho. wsimpl_in Hs1.
  injection Hs1 as <-.
  apply modify_inv in Hs2 as (o1 & Ho1 & ->). wsimpl_in Ho1. wsimpl_in Hs3.
  rewrite lookup_insert_eq in Ho1. injection Ho1 as <-. injection Hs3 as <-.
  apply modify_inv in Hs4 as (o2 & Ho2 & ->). wsimpl_in Ho2. wsimpl_in Hs5.
  rewrite lookup_insert_eq in Ho2. injection Ho2 as <-. injection Hs5 as <-.
  wsimpl_in Hs6. rewrite !insert_insert_eq in Hs6.
  apply (Object3D_traverse_agree placing) in Hs6; [|apply @enableShadows_agree].
  pose proof Hs6 as (Et3 & _). wsimpl_in Et3.
  rewrite Et3 in Hs7, Hs8. wsimpl_in Hs7. wsimpl_in Hs8. injection Hs7 as <-.
  destruct a9, a10. exists o, w3, w4, w5, a11. by wsimpl.
Qed.

Lemma onLoad_spec fuel id pl r u w w' :
  onLoad fuel id pl r w = Some (u, w') →
  ∃ g m i l,
    this w' = mkCandleLoader (scene (this w)) (Some r) (Some g) (Some l)
                (flameTime (this w)) (Some m) (Some i) ∧
    NoDup [r; g; m; i; l] ∧
    Forall (λ q, is_Some (heap w' !! q)) [r; g; m; i; l] ∧
    is_Some (heap w !! r) ∧
    is_Some (heap w !! scene (this w)) ∧
    (∀ q, is_Some (heap w !! q) → is_Some (heap w' !! q)) ∧
    (∀ q, q ≠ r → is_Some (heap w !! q) →
          transform <$> heap w' !! q = transform <$> heap w !! q) ∧
    (∃ o, heap w !! r = Some o ∧
       transform <$> heap w' !! r =
         Some (Vector3.mk (pl_x pl) (pl_y pl) (pl_z pl),
               Euler.setY (pl_rotation pl) (rotation o),
               Vector3.mk (pl_scale pl) (pl_scale pl) (pl_scale pl))) ∧
    transform <$> heap w' !! g =
      Some (Vector3.mk (pl_x pl) (pl_y pl + 17 * pl_scale pl) (pl_z pl),
            Euler.mk 0 0 0,
            Vector3.mk (pl_scale pl * 2) (pl_scale pl * 2) (pl_scale pl * 2)) ∧
    transform <$> heap w' !! l =
      Some (Vector3.mk (pl_x pl) (pl_y pl + 17 * pl_scale pl + 0.5) (pl_z pl),
            Euler.mk 0 0 0, Vector3.mk 1 1 1) ∧
    ∃ rq, requests w !! id = Some rq ∧
      requests w' = match promise rq with
                    | Pending =>
                        <[id := mkRequest (url rq) (closure rq) (Fulfilled r)]>
                          (requests w)
                    | _ => requests w
                    end.
Proof.
  intros (o & w3 & w4 & w5 & a11 & Ho & Hs6 & Hs8 & Hs9 & Hs10 & H)%onLoad_inv.
  destruct w as [h c q]. wsimpl_in Ho. wsimpl_in Hs6. wsimpl_in Hs8.
  apply agree_placing_transform in Hs6.
  pose proof (Object3D_add_agree _ _ _ _ _ Hs8) as Hag.
  pose proof (agree_trans _ _ _ _ Hs6 Hag) as Hag4.
  destruct Hs6 as (Et3 & Eq3 & Hh3). wsimpl_in Et3. wsimpl_in Eq3.
  wsimpl_in Hh3.
  assert (is_Some (heap w3 !! r)) as Hr3.
  { rewrite <-(fmap_is_Some transform), Hh3, lookup_insert_eq. by eexists. }
  apply Object3D_add_live in Hs8; [|done].
  destruct Hag4 as (Et4 & Eq4 & Hh4). wsimpl_in Et4. wsimpl_in Eq4.
  wsimpl_in Hh4.
  destruct (createFlame_spec (pl_x pl) (pl_y pl) (pl_z pl) (pl_scale pl) w4)
    as (w5' & g & m & i & l & Hrun & Et5 & Eq5 & Hnd & Hfresh & Hlive
        & Hframe & Hg & Hl).
  { rewrite Et4. wsimpl. apply (agree_live transform _ _ _ Hag), Hs8. }
  rewrite Hs9 in Hrun. injection Hrun as <-.
  rewrite Et5, Et4 in Hs10. wsimpl_in Hs10. injection Hs10 as <-.
  apply settle_inv in H as (Eh & Et & rq & Hrq & Eq).
  rewrite Et4 in Et5. wsimpl_in Et5. rewrite Eq5, Eq4 in Hrq, Eq.
  assert (∀ x, is_Some (h !! x) → is_Some (heap w4 !! x)) as Hmono.
  { intros x Hx. rewrite <-(fmap_is_Some transform), Hh4.
    rewrite fmap_is_Some, lookup_insert_is_Some. destruct (decide (r = x)); auto. }
  assert (is_Some (heap w4 !! r)) as Hr4 by (apply Hmono; eauto).
  exists g, m, i, l. wsimpl. rewrite Eh.
  split; [by rewrite Et|].
  split.
  { apply NoDup_cons. split; [|done]. intros Hin.
    rewrite Forall_forall in Hfresh. apply Hfresh in Hin.
    rewrite Hin in Hr4. by destruct Hr4. }
  split.
  { apply Forall_cons. split; [|done].
    rewrite <-(fmap_is_Some transform), Hframe, fmap_is_Some; done. }
  split; [eauto|].
  split.
  { rewrite <-(fmap_is_Some transform), Hh3, fmap_is_Some in Hs8.
    apply lookup_insert_is_Some in Hs8 as [<-|[_ ?]]; eauto. }
  split.
  { intros x Hx. rewrite <-(fmap_is_Some transform), Hframe by auto.
    rewrite fmap_is_Some. auto. }
  split.
  { intros x Hne Hx. rewrite Hframe by auto. rewrite Hh4.
    by rewrite lookup_insert_ne. }
  split.
  { exists o. split; [done|]. rewrite Hframe by done.
    by rewrite Hh4, lookup_insert_eq. }
  split; [done|]. split; [done|]. eauto.
Qed.

Lemma settle_succeeds id s w :
  is_Some (requests w !! id) → ∃ w', settle id s w = Some (tt, w').
Proof.
  intros [rq Hrq]. unfold settle. rewrite Hrq.
  destruct (promise rq); by eexists.
Qed.

(** On a live scene and a well-formed asset the success callback runs to
    completion. *)
Lemma onLoad_succeeds fuel id pl r w :
  is_Some (heap w !! scene (this w)) →
  asset_ok fuel (heap w) r →
  is_Some (requests w !! id) →
  ∃ w', onLoad fuel id pl r w = Some (tt, w').
Proof.
  intros [sco Hsc] [Hd (o & Ho & Hpar)] Hrq.
  remember (onLoad fuel id pl r w) as res eqn:E. symmetry in E.
  unfold onLoad in E. destruct w as [h c q].
  wsimpl_in E. wsimpl_in Hsc. wsimpl_in Hd. wsimpl_in Ho. wsimpl_in Hrq.
  do 8 mstep E.
  match type of E with (_ ≫= _) ?W = _ => set (w2 := W) in * end.
  assert (agree links (mkWorld h (this w2) q) w2) as Hag2.
  { split; [done|]. split; [done|]. intros x. subst w2. wsimpl.
    destruct (decide (r = x)) as [<-|].
    - by rewrite lookup_insert_eq, Ho.
    - by rewrite lookup_insert_ne. }
  destruct (Object3D_traverse_succeeds fuel r w2) as [w3 Hw3].
  { by eapply depth_le_agree. }
  erewrite bind_run in E by done.
  apply (Object3D_traverse_agree placing) in Hw3; [|apply @enableShadows_agree].
  apply agree_placing_links in Hw3.
  pose proof (agree_trans _ _ _ _ Hag2 Hw3) as Hag3.
  destruct (agree_lookup _ _ _ _ _ Hag3 Ho) as (o3 & Ho3 & [= Hp3 _]).
  destruct (agree_lookup _ _ _ _ _ Hag3 Hsc) as (sc3 & Hsc3 & _).
  destruct Hag3 as (Et3 & Eq3 & _). wsimpl_in Et3. wsimpl_in Eq3.
  destruct Hw3 as (Et3' & _). subst w2. wsimpl_in Et3'.
  erewrite bind_run in E by (unfold this_scene; by erewrite bind_run by done).
  erewrite bind_run in E
    by (unfold this_candle; erewrite bind_run by done; by rewrite Et3').
  rewrite Et3' in E. wsimpl_in E.
  destruct (Object3D_add_succeeds (scene c) r sc3 o3 w3) as [w4 Hw4];
    [done | done | congruence |].
  erewrite bind_run in E by done.
  pose proof (Object3D_add_agree _ _ _ _ _ Hw4) as Hag4.
  destruct (agree_lookup _ _ _ _ _ Hag4 Hsc3) as (sc4 & Hsc4 & _).
  destruct Hag4 as (Et4 & Eq4 & _).
  destruct (createFlame_spec (pl_x pl) (pl_y pl) (pl_z pl) (pl_scale pl) w4)
    as (w5 & g & m & i & l & Hw5 & Et5 & Eq5 & _).
  { rewrite Et4, Et3'. wsimpl. eauto. }
  erewrite bind_run in E by done.
  erewrite bind_run in E
    by (unfold this_candle; erewrite bind_run by done;
        by rewrite Et5, Et4, Et3').
  destruct (settle_succeeds id (Fulfilled r) w5) as [w6 Hw6].
  { by rewrite Eq5, Eq4, Eq3. }
  rewrite Hw6 in E. subst res. eauto.
Qed.

(** ** [removeCandle], and the methods on a controller that holds nothing *)

(** One of the three guarded blocks of [removeCandle]: whichever branch is
    taken, the field ends up [null]. *)
Lemma detach_inv (get : CandleLoader → option ref)
    (f : CandleLoader → CandleLoader) u w w' :
  (∀ c, get c = None → f c = c) →
  match get (this w) with
  | Some c => sc ← this_scene; Object3D_remove sc c ;; assign f
  | None => mret tt
  end w = Some (u, w') →
  ∃ w1, agree transform w w1 ∧ w' = set_this (f (this w1)) w1.
Proof.
  intros Hf H. destruct (get (this w)) as [c|] eqn:Hget.
  - minv H. apply assign_inv in H as ->.
    apply Object3D_remove_agree in Hs. eauto.
  - apply ret_inv in H as [_ <-]. exists w. split; [apply agree_refl|].
    rewrite Hf by done. by destruct w.
Qed.

Lemma removeCandle_spec u w w' :
  removeCandle w = Some (u, w') →
  nothing_loaded w' ∧
  scene (this w') = scene (this w) ∧
  flameTime (this w') = flameTime (this w) ∧
  mainFlame (this w') = mainFlame (this w) ∧
  innerFlame (this w') = innerFlame (this w) ∧
  requests w' = requests w ∧
  ∀ q, transform <$> heap w' !! q = transform <$> heap w !! q.
Proof.
  unfold removeCandle. intros H. minv H.
  apply (detach_inv candle) in Hs as (v0 & (E0 & Q0 & G0) & ->);
    [|by intros []; cbn; intros ->].
  apply (detach_inv flame) in Hs0 as (v1 & (E1 & Q1 & G1) & ->);
    [|by intros []; cbn; intros ->].
  apply (detach_inv flameLight) in H as (v2 & (E2 & Q2 & G2) & ->);
    [|by intros []; cbn; intros ->].
  unfold nothing_loaded. wsimpl_in E1. wsimpl_in Q1. wsimpl_in G1.
  wsimpl_in E2. wsimpl_in Q2. wsimpl_in G2. wsimpl.
  rewrite E2, E1, E0. wsimpl. rewrite Q2, Q1, Q0.
  repeat split. intros q. by rewrite G2, G1, G0.
Qed.

Lemma removeCandle_nothing_loaded w :
  nothing_loaded w → removeCandle w = Some (tt, w).
Proof.
  intros (Hc & Hf & Hl). unfold removeCandle.
  erewrite bind_run by reflexivity. rewrite Hc.
  erewrite bind_run by reflexivity.
  erewrite bind_run by reflexivity. rewrite Hf.
  erewrite bind_run by reflexivity.
  erewrite bind_run by reflexivity. by rewrite Hl.
Qed.

Lemma updatePosition_nothing_loaded x y z w :
  nothing_loaded w → updatePosition x y z w = Some (tt, w).
Proof.
  intros (Hc & _). unfold updatePosition.
  erewrite bind_run by reflexivity. by rewrite Hc.
Qed.

Lemma animate_nothing_loaded Math_sin deltaTime w :
  nothing_loaded w → animate Math_sin deltaTime w = Some (tt, w).
Proof.
  intros (_ & Hf & _). unfold animate.
  erewrite bind_run by reflexivity. by rewrite Hf.
Qed.

Lemma Object3D_remove_succeeds p c w :
  is_Some (heap w !! p) → is_Some (heap w !! c) →
  ∃ w', Object3D_remove p c w = Some (tt, w').
Proof.
  intros [po Hp] [co Hc]. unfold Object3D_remove.
  erewrite bind_run by by apply deref_run.
  case_bool_decide; [|by eexists].
  erewrite bind_run by by apply modify_run.
  destruct (decide (c = p)) as [->|].
  - erewrite modify_run by (cbn; apply lookup_insert_eq). by eexists.
  - erewrite modify_run by (cbn; by rewrite lookup_insert_ne). by eexists.
Qed.

Lemma detach_succeeds (get : CandleLoader → option ref)
    (f : CandleLoader → CandleLoader) w :
  is_Some (heap w !! scene (this w)) →
  (∀ c, get (this w) = Some c → is_Some (heap w !! c)) →
  ∃ w', match get (this w) with
        | Some c => sc ← this_scene; Object3D_remove sc c ;; assign f
        | None => mret tt
        end w = Some (tt, w').
Proof.
  intros Hsc Hc. destruct (get (this w)) as [c|]; [|by eexists].
  erewrite bind_run by reflexivity.
  destruct (Object3D_remove_succeeds (scene (this w)) c w) as [w1 Hw1];
    [done | by apply Hc |].
  erewrite bind_run by done. by eexists.
Qed.

(** On a world that satisfies the invariant, [removeCandle] runs to
    completion. *)
Lemma removeCandle_succeeds w :
  inv w → ∃ w', removeCandle w = Some (tt, w').
Proof.
  intros [Hsc Hinv].
  assert ((∀ c, candle (this w) = Some c → is_Some (heap w !! c)) ∧
          (∀ c, flame (this w) = Some c → is_Some (heap w !! c)) ∧
          (∀ c, flameLight (this w) = Some c → is_Some (heap w !! c)))
    as (Lc & Lf & Ll).
  { destruct Hinv as [(-> & -> & ->)|(c & g & m & i & l & Hl)]; [done|].
    destruct Hl as (-> & -> & _ & _ & -> & _ & Hl).
    rewrite !Forall_cons in Hl. destruct Hl as (? & ? & _ & _ & ? & _).
    by repeat split; intros ? [= <-]. }
  unfold removeCandle. erewrite bind_run by reflexivity.
  destruct (detach_succeeds candle (set_candle None) w Hsc) as [w0 H0].
  { done. }
  erewrite bind_run by done.
  apply (detach_inv candle) in H0 as (v0 & Hag0 & ->);
    [|by intros []; cbn; intros ->].
  erewrite bind_run by reflexivity.
  pose proof Hag0 as (E0 & _).
  destruct (detach_succeeds flame (set_flame None)
              (set_this (set_candle None (this v0)) v0)) as [w1 H1].
  { wsimpl. rewrite E0. by apply (agree_live _ _ _ _ Hag0). }
  { wsimpl. rewrite E0. intros c Hc. apply (agree_live _ _ _ _ Hag0).
    by apply Lf. }
  erewrite bind_run by done.
  apply (detach_inv flame) in H1 as (v1 & Hag1 & ->);
    [|by intros []; cbn; intros ->].
  erewrite bind_run by reflexivity.
  pose proof Hag1 as (E1 & _). wsimpl_in E1.
  destruct (detach_succeeds flameLight (set_flameLight None)
              (set_this (set_flame None (this v1)) v1)) as [w2 H2].
  { wsimpl. rewrite E1, E0. wsimpl.
    apply (agree_live _ _ _ _ Hag1), (agree_live _ _ _ _ Hag0), Hsc. }
  { wsimpl. rewrite E1, E0. wsimpl. intros c Hc.
    apply (agree_live _ _ _ _ Hag1), (agree_live _ _ _ _ Hag0).
    by apply Ll. }
  eauto.
Qed.

(** ** [animate] and [updatePosition] while a candle is loaded *)

Section AnimateLoaded.
Variable Math_sin : float → float.

Lemma animate_loaded deltaTime w c g m i l :
  loaded w c g m i l →
  ∃ om oi ol,
    heap w !! m = Some om ∧ heap w !! i = Some oi ∧ heap w !! l = Some ol ∧
    let t := (flameTime (this w) + default 0.016 deltaTime)%float in
    let fl := flicker_at Math_sin t in
    animate Math_sin deltaTime w =
      Some (tt, mkWorld
        (<[l := upd_position
                  (Vector3.setY (Vector3.y (position ol) + fl * 0.1))
                  (set_intensity (1.5 + fl * 2) ol)]>
          (<[i := upd_position (Vector3.setX (Math_sin (t * 6) * 0.015))
                    (upd_scale (Vector3.set (1.0 + fl * 1.2) (1.0 + fl * 1.2)
                                            (1.0 + fl * 1.2)) oi)]>
            (<[m := upd_position (Vector3.setX (Math_sin (t * 5) * 0.02))
                      (upd_scale (Vector3.set (1.0 + fl) (1.0 + fl)
                                              (1.0 + fl)) om)]>
              (heap w))))
        (set_flameTime t (this w)) (requests w)).
Proof.
  intros (Hc & Hg & Hm & Hi & Hl & Hnd & Hlive).
  rewrite !Forall_cons in Hlive.
  destruct Hlive as (_ & _ & [om Hom] & [oi Hoi] & [ol Hol] & _).
  rewrite !NoDup_cons, !not_elem_of_cons in Hnd.
  destruct Hnd as (_ & _ & (Hmi & Hml & _) & (Hil & _) & _).
  exists om, oi, ol. repeat (split; [done|]). intros t fl.
  destruct w as [h [sc ? ? ? ft ? ?] q].
  cbn in Hc, Hg, Hm, Hi, Hl, Hom, Hoi, Hol. subst.
  remember (animate _ _ _) as res eqn:E in |- *. symmetry in E.
  unfold animate in E.
  mstep E. cbn [truthy negb orb] in E.
  repeat mstep E.
  erewrite modify_run in E by lookup. wsimpl_in E.
  rewrite insert_insert_eq in E. subst res t fl. reflexivity.
Qed.
Lemma animate_stays_loaded deltaTime u w w' c g m i l :
loaded w c g m i l →
animate Math_sin deltaTime w = Some (u, w') →
loaded w' c g m i l.
Proof.
intros Hl H.
destruct (animate_loaded deltaTime w c g m i l Hl)
  as (om & oi & ol & _ & _ & _ & Hrun).
cbv zeta in Hrun. rewrite Hrun in H. injection H as _ <-.
destruct Hl as (? & ? & ? & ? & ? & ? & Hlive). unfold loaded. cbn.
repeat (split; [done|]). eapply Forall_impl; [done|]. cbn. intros q Hq.
rewrite !lookup_insert_is_Some.
destruct (decide (l = q)), (decide (i = q)), (decide (m = q));
  naive_solver.
Qed.
End AnimateLoaded.

(** ** The invariant *)

(** The invariant only looks at the references the controller holds and at
    which objects are live. *)
Lemma inv_transfer w w' :
  inv w →
  scene (this w') = scene (this w) →
  candle (this w') = candle (this w) →
  flame (this w') = flame (this w) →
  flameLight (this w') = flameLight (this w) →
  mainFlame (this w') = mainFlame (this w) →
  innerFlame (this w') = innerFlame (this w) →
  (∀ q, is_Some (heap w !! q) → is_Some (heap w' !! q)) →
  inv w'.
Proof.
  intros [Hsc Hinv] Es Ec Ef El Em Ei Hmono. split.
  { rewrite Es. by apply Hmono. }
  destruct Hinv as [(? & ? & ?)|(c & g & m & i & l & Hl)].
  - left. unfold nothing_loaded. by rewrite Ec, Ef, El.
  - right. exists c, g, m, i, l. unfold loaded in *.
    rewrite Ec, Ef, El, Em, Ei.
    destruct Hl as (? & ? & ? & ? & ? & ? & Hlive).
    repeat (split; [done|]). eapply Forall_impl; [done|]. apply Hmono.
Qed.

Lemma inv_initial h sc : is_Some (h !! sc) → inv (initial h sc).
Proof. intros Hsc. split; [done|]. by left. Qed.

Lemma inv_environment w h' : inv w → heap w ⊆ h' → inv (set_heap h' w).
Proof.
  intros Hinv Hsub. apply (inv_transfer w); try done.
  intros q [o Ho]. exists o. by eapply lookup_weaken.
Qed.

Lemma inv_onLoad fuel id pl r u w w' :
  onLoad fuel id pl r w = Some (u, w') → inv w'.
Proof.
  intros (g & m & i & l & Et & Hnd & Hlive & _ & Hsc & Hmono & _)%onLoad_spec.
  split.
  - rewrite Et. cbn. by apply Hmono.
  - right. exists r, g, m, i, l. unfold loaded. by rewrite Et.
Qed.

Lemma inv_updatePosition x y z u w w' :
  inv w → updatePosition x y z w = Some (u, w') → inv w'.
Proof.
  unfold updatePosition. intros Hinv H. minv H.
  destruct (candle (this w)) as [c|].
  - apply modify_inv in H as (o & Ho & ->).
    apply (inv_transfer w); try done. cbn. intros q Hq.
    apply lookup_insert_is_Some. destruct (decide (c = q)); auto.
  - by apply ret_inv in H as [_ <-].
Qed.

Lemma inv_removeCandle u w w' :
  inv w → removeCandle w = Some (u, w') → inv w'.
Proof.
  intros [Hsc _] (Hn & Es & _ & _ & _ & _ & Hag)%removeCandle_spec.
  split; [|by left].
  by rewrite Es, <-(fmap_is_Some transform), Hag, fmap_is_Some.
Qed.

Lemma inv_animate Math_sin deltaTime u w w' :
  inv w → animate Math_sin deltaTime w = Some (u, w') → inv w'.
Proof.
  intros Hinv H. pose proof Hinv as [_ [Hn|(c & g & m & i & l & Hl)]].
  - rewrite animate_nothing_loaded in H by done. by injection H as _ <-.
  - destruct (animate_loaded Math_sin deltaTime w c g m i l Hl)
      as (om & oi & ol & Hm & Hi & Hol & Hrun).
    cbv zeta in Hrun. rewrite Hrun in H. injection H as _ <-.
    apply (inv_transfer w); try done. cbn. intros q Hq.
    rewrite !lookup_insert_is_Some.
    destruct (decide (l = q)), (decide (i = q)), (decide (m = q));
      naive_solver.
Qed.

Lemma inv_call Math_sin c w w' :
  inv w → run_call Math_sin c w = Some (tt, w') → inv w'.
Proof.
  intros Hinv H. destruct c as [options|fuel id ev|x y z|dt|]; cbn in H.
  - minv H. apply ret_inv in H as [_ ->]. injection Hs as _ <-.
    by apply (inv_transfer w).
  - unfold loader_callback in H. minv H.
    apply get_request_inv in Hs as [Hrq ->].
    destruct ev as [r|loaded total|e].
    + by eapply inv_onLoad.
    + by apply ret_inv in H as [_ <-].
    + apply settle_inv in H as (Eh & Et & _).
      apply (inv_transfer w); try by rewrite ?Et. by rewrite Eh.
  - by eapply inv_updatePosition.
  - by eapply inv_animate.
  - by eapply inv_removeCandle.
Qed.

Lemma reachable_inv Math_sin w : reachable Math_sin w → inv w.
Proof.
  induction 1 as [h sc Hsc|w c w' _ IH Hrun|w h' _ IH Hsub].
  - by apply inv_initial.
  - by eapply inv_call.
  - by apply inv_environment.
Qed.

(** * The properties of the specification *)

Lemma loader_callback_Loaded_inv fuel id r u w w' :
  loader_callback fuel id (Loaded r) w = Some (u, w') →
  ∃ rq, requests w !! id = Some rq ∧
        onLoad fuel id (closure rq) r w = Some (u, w').
Proof.
  unfold loader_callback. intros H. minv H.
  apply get_request_inv in Hs as [Hrq ->]. eauto.
Qed.

(** C1. When the loader delivers the model of a [loadCandle(options)] call
    and the promise of the call is fulfilled, the model is the controller's
    candle, the value of the promise; its position is (x, y, z), its scale is
    (scale, scale, scale) and its rotation about the Y axis is rotation,
    where x, y, z, scale and rotation are the fields of [options] or, for a
    field left out, its default. *)
Theorem loadCandle_places_model fuel id options gltf_scene w w' :
  requests w !! id = Some (mkRequest candle_url (placement options) Pending) →
  loader_callback fuel id (Loaded gltf_scene) w = Some (tt, w') →
  let p := placement options in
  promise <$> requests w' !! id = Some (Fulfilled gltf_scene) ∧
  candle (this w') = Some gltf_scene ∧
  ∃ o, heap w' !! gltf_scene = Some o ∧
       position o = Vector3.mk (pl_x p) (pl_y p) (pl_z p) ∧
       scale o = Vector3.mk (pl_scale p) (pl_scale p) (pl_scale p) ∧
       Euler.y (rotation o) = pl_rotation p.
Proof.
  intros Hrq (rq & Hrq' & H)%loader_callback_Loaded_inv p.
  rewrite Hrq in Hrq'. injection Hrq' as <-. cbn [closure] in H.
  apply onLoad_spec in H
    as (g & m & i & l & Et & _ & _ & _ & _ & _ & _ & (o & Ho & Hr) & _ & _
        & rq & Hrq' & Eq).
  rewrite Hrq in Hrq'. injection Hrq' as <-. cbn in Eq.
  split; [by rewrite Eq, lookup_insert_eq|].
  split; [by rewrite Et|].
  destruct (heap w' !! gltf_scene) as [o'|] eqn:Ho'; [|done].
  injection Hr as Hp Hr Hs. exists o'. repeat split; [done..|].
  by rewrite Hr.
Qed.

(** C2. After the same successful load, the flame group sits at
    (x, y + 17*scale, z) with scale (2*scale, 2*scale, 2*scale), and the
    point light at (x, y + 17*scale + 0.5, z). *)
Theorem loadCandle_places_flame fuel id options gltf_scene w w' :
  requests w !! id = Some (mkRequest candle_url (placement options) Pending) →
  loader_callback fuel id (Loaded gltf_scene) w = Some (tt, w') →
  let x := pl_x (placement options) in
  let y := pl_y (placement options) in
  let z := pl_z (placement options) in
  let scale' := pl_scale (placement options) in
  ∃ g l og ol,
    flame (this w') = Some g ∧ heap w' !! g = Some og ∧
    flameLight (this w') = Some l ∧ heap w' !! l = Some ol ∧
    position og = Vector3.mk x (y + 17 * scale') z ∧
    scale og = Vector3.mk (2 * scale') (2 * scale') (2 * scale') ∧
    position ol = Vector3.mk x (y + 17 * scale' + 0.5) z.
Proof.
  intros Hrq (rq & Hrq' & H)%loader_callback_Loaded_inv x y z scale'.
  rewrite Hrq in Hrq'. injection Hrq' as <-. cbn [closure] in H.
  apply onLoad_spec in H
    as (g & m & i & l & Et & _ & _ & _ & _ & _ & _ & _ & Hg & Hl & _).
  destruct (heap w' !! g) as [og|] eqn:Hog; [|done].
  destruct (heap w' !! l) as [ol|] eqn:Hol; [|done].
  injection Hg as Hgp _ Hgs. injection Hl as Hlp _ _.
  exists g, l, og, ol. rewrite Et. repeat split; try done.
  rewrite Hgs. subst scale'. by rewrite !(float_mul_comm 2).
Qed.

(** C3. When the loader reports an error for a pending [loadCandle] call,
    the promise of the call is rejected with that error and nothing else
    changes: the controller and the store are as before, so a controller
    that held nothing still holds nothing.  A later [loadCandle] whose model
    the loader delivers then succeeds as usual. *)
Theorem load_failure_leaves_no_state fuel id error w rq :
  requests w !! id = Some rq →
  promise rq = Pending →
  ∃ w1,
    loader_callback fuel id (Failed error) w = Some (tt, w1) ∧
    promise <$> requests w1 !! id = Some (Rejected error) ∧
    this w1 = this w ∧ heap w1 = heap w ∧
    (nothing_loaded w → nothing_loaded w1) ∧
    ∀ fuel' options gltf_scene,
      is_Some (heap w !! scene (this w)) →
      asset_ok fuel' (heap w) gltf_scene →
      ∃ id' w2 w3,
        loadCandle options w1 = Some (id', w2) ∧
        loader_callback fuel' id' (Loaded gltf_scene) w2 = Some (tt, w3) ∧
        promise <$> requests w3 !! id' = Some (Fulfilled gltf_scene) ∧
        candle (this w3) = Some gltf_scene ∧
        is_Some (flame (this w3)) ∧ is_Some (flameLight (this w3)).
Proof.
  intros Hrq Hp.
  exists (set_requests
            (<[id := mkRequest (url rq) (closure rq) (Rejected error)]> (requests w)) w).
  split.
  { unfold loader_callback.
    erewrite bind_run by (unfold get_request; by rewrite Hrq).
    unfold onError, settle. by rewrite Hrq, Hp. }
  split; [by cbn; rewrite lookup_insert_eq|].
  do 3 (split; [done|]). intros fuel' options r Hsc Hasset.
  set (w1 := set_requests _ w).
  set (id' := fresh (dom (requests w1))).
  set (w2 := set_requests
               (<[id' := mkRequest candle_url (placement options) Pending]> (requests w1))
               w1).
  assert (requests w2 !! id' = Some (mkRequest candle_url (placement options) Pending))
    as Hrq' by apply lookup_insert_eq.
  destruct (onLoad_succeeds fuel' id' (placement options) r w2) as [w3 Hw3];
    [done | done | by eexists |].
  exists id', w2, w3. split; [done|]. split.
  { unfold loader_callback.
    by erewrite bind_run by (unfold get_request; by rewrite Hrq'). }
  apply onLoad_spec in Hw3
    as (g & m & i & l & Et & _ & _ & _ & _ & _ & _ & _ & _ & _ & rq' & Hrq''
        & Eq).
  rewrite Hrq' in Hrq''. injection Hrq'' as <-. cbn [promise closure] in Eq.
  rewrite Eq, lookup_insert_eq, Et. by repeat split; cbn.
Qed.

(** C4. In every reachable world the flame group is there exactly when the
    candle is, and so is the light. *)
Theorem flame_and_light_iff_candle Math_sin w :
  reachable Math_sin w →
  (is_Some (flame (this w)) ↔ is_Some (candle (this w))) ∧
  (is_Some (flameLight (this w)) ↔ is_Some (candle (this w))).
Proof.
  intros [_ [(-> & -> & ->)|(c & g & m & i & l & Hl)]]%reachable_inv.
  - done.
  - destruct Hl as (-> & -> & _ & _ & -> & _). by split.
Qed.

Lemma reachable_loaded Math_sin w :
  reachable Math_sin w → is_Some (candle (this w)) →
  ∃ c g m i l, loaded w c g m i l.
Proof.
  intros [_ [(Hc & _)|Hl]]%reachable_inv [c Hc']; [congruence|done].
Qed.

(** C5. While a candle is loaded, [animate(deltaTime)] adds [deltaTime] to
    the elapsed time; with [t] the new elapsed time and
    flicker = sin(t*8)*0.03 + sin(t*12.5)*0.02 + sin(t*20)*0.015, it sets the
    outer cone's scale to 1 + flicker on the three axes and its x to
    sin(t*5)*0.02, and the inner cone's scale to 1 + flicker*1.2 and its x to
    sin(t*6)*0.015. *)
Theorem animate_flickers_flames Math_sin deltaTime w :
  reachable Math_sin w →
  is_Some (candle (this w)) →
  let t := (flameTime (this w) + default 0.016 deltaTime)%float in
  let flicker := (Math_sin (t * 8) * 0.03 + Math_sin (t * 12.5) * 0.02
                  + Math_sin (t * 20) * 0.015)%float in
  ∃ w' m i om oi,
    animate Math_sin deltaTime w = Some (tt, w') ∧
    flameTime (this w') = t ∧
    mainFlame (this w') = Some m ∧ heap w' !! m = Some om ∧
    innerFlame (this w') = Some i ∧ heap w' !! i = Some oi ∧
    scale om = Vector3.mk (1 + flicker) (1 + flicker) (1 + flicker) ∧
    Vector3.x (position om) = (Math_sin (t * 5) * 0.02)%float ∧
    scale oi = Vector3.mk (1 + flicker * 1.2) (1 + flicker * 1.2)
                 (1 + flicker * 1.2) ∧
    Vector3.x (position oi) = (Math_sin (t * 6) * 0.015)%float.
Proof.
  intros Hreach Hc t flicker.
  destruct (reachable_loaded _ _ Hreach Hc) as (c & g & m & i & l & Hl).
  destruct (animate_loaded Math_sin deltaTime w c g m i l Hl)
    as (om & oi & ol & Hm & Hi & Hol & Hrun).
  destruct Hl as (_ & _ & Em & Ei & _ & Hnd & _).
  rewrite !NoDup_cons, !not_elem_of_cons in Hnd.
  destruct Hnd as (_ & _ & (Hmi & Hml & _) & (Hil & _) & _).
  eexists _, m, i, _, _. split; [exact Hrun|]. cbn.
  split; [done|]. split; [done|].
  split; [by rewrite lookup_insert_ne, lookup_insert_ne, lookup_insert_eq|].
  split; [done|].
  split; [by rewrite lookup_insert_ne, lookup_insert_eq|]. done.
Qed.

(** C6. While a candle is loaded, [animate(deltaTime)] sets the light's
    intensity to 1.5 + flicker*2 and moves the light from wherever it is by
    flicker*0.1 along the vertical axis.  The moves add up: a second call
    starts from where the first one left the light. *)
Theorem animate_flickers_light Math_sin deltaTime deltaTime' w :
  reachable Math_sin w →
  is_Some (candle (this w)) →
  let t := (flameTime (this w) + default 0.016 deltaTime)%float in
  let flicker := (Math_sin (t * 8) * 0.03 + Math_sin (t * 12.5) * 0.02
                  + Math_sin (t * 20) * 0.015)%float in
  let t' := (t + default 0.016 deltaTime')%float in
  let flicker' := (Math_sin (t' * 8) * 0.03 + Math_sin (t' * 12.5) * 0.02
                   + Math_sin (t' * 20) * 0.015)%float in
  ∃ w' w'' l ol ol' ol'',
    animate Math_sin deltaTime w = Some (tt, w') ∧
    animate Math_sin deltaTime' w' = Some (tt, w'') ∧
    flameLight (this w) = Some l ∧
    heap w !! l = Some ol ∧ heap w' !! l = Some ol' ∧
    heap w'' !! l = Some ol'' ∧
    intensity ol' = Some (1.5 + flicker * 2)%float ∧
    Vector3.y (position ol') = (Vector3.y (position ol) + flicker * 0.1)%float ∧
    intensity ol'' = Some (1.5 + flicker' * 2)%float ∧
    Vector3.y (position ol'') =
      (Vector3.y (position ol) + flicker * 0.1 + flicker' * 0.1)%float.
Proof.
  intros Hreach Hc t flicker t' flicker'.
  destruct (reachable_loaded _ _ Hreach Hc) as (c & g & m & i & l & Hl).
  destruct (animate_loaded Math_sin deltaTime w c g m i l Hl)
    as (om & oi & ol & Hm & Hi & Hol & Hrun).
  pose proof (animate_stays_loaded _ _ _ _ _ _ _ _ _ _ Hl Hrun) as Hl'.
  destruct (animate_loaded Math_sin deltaTime' _ c g m i l Hl')
    as (om' & oi' & ol' & _ & _ & Hol' & Hrun').
  destruct Hl as (_ & _ & _ & _ & El & _).
  cbn in Hol'. rewrite lookup_insert_eq in Hol'. injection Hol' as <-.
  eexists _, _, l, ol, _, _. split; [exact Hrun|]. split; [exact Hrun'|].
  cbn. split; [done|]. split; [done|].
  split; [by rewrite lookup_insert_eq|].
  split; [by rewrite lookup_insert_eq|]. done.
Qed.

(** C7. [removeCandle] is idempotent: two calls in a row do what one call
    does; after a call that completed, a second call completes and changes
    nothing; on a controller that holds nothing a call completes and changes
    nothing; and in every world that satisfies the invariant the call
    completes. *)
Theorem removeCandle_idempotent w :
  (removeCandle ;; removeCandle) w = removeCandle w ∧
  (∀ w1, removeCandle w = Some (tt, w1) → removeCandle w1 = Some (tt, w1)) ∧
  (nothing_loaded w → removeCandle w = Some (tt, w)) ∧
  (inv w → ∃ w1, removeCandle w = Some (tt, w1)).
Proof.
  assert (∀ w1, removeCandle w = Some (tt, w1) →
                removeCandle w1 = Some (tt, w1)) as Hsecond.
  { intros w1 (Hn & _)%removeCandle_spec.
    by apply removeCandle_nothing_loaded. }
  split; [|split; [done|split]].
  - destruct (removeCandle w) as [[[] w1]|] eqn:H.
    + erewrite bind_run by done. auto.
    + unfold mbind, M_bind. by rewrite H.
  - apply removeCandle_nothing_loaded.
  - apply removeCandle_succeeds.
Qed.

(** C8. After [removeCandle], any sequence of [animate] and
    [updatePosition] calls runs to completion and leaves the store, the
    controller and the requests exactly as they were. *)
Theorem after_removeCandle_calls_do_nothing Math_sin w w1 cs :
  removeCandle w = Some (tt, w1) →
  Forall animate_or_updatePosition cs →
  run_calls Math_sin cs w1 = Some (tt, w1).
Proof.
  intros (Hn & _)%removeCandle_spec Hcs.
  induction Hcs as [|c cs Hc _ IH]; [done|].
  cbn [run_calls]. erewrite bind_run; [exact IH|].
  destruct c; try done; cbn.
  - by apply updatePosition_nothing_loaded.
  - by apply animate_nothing_loaded.
Qed.

(** C9. While a candle is loaded, [animate(deltaTime)] leaves the candle,
    the flame group and every object other than the two cones and the light
    untouched; of a cone it changes the scale and the x of the position only,
    of the light the intensity and the y of the position only; and of the
    controller it changes the elapsed time only. *)
Theorem animate_frame Math_sin deltaTime w :
  reachable Math_sin w →
  is_Some (candle (this w)) →
  ∃ w' c g m i l,
    animate Math_sin deltaTime w = Some (tt, w') ∧
    candle (this w) = Some c ∧ flame (this w) = Some g ∧
    mainFlame (this w) = Some m ∧ innerFlame (this w) = Some i ∧
    flameLight (this w) = Some l ∧
    heap w' !! c = heap w !! c ∧
    heap w' !! g = heap w !! g ∧
    (∀ q, q ∉ [m; i; l] → heap w' !! q = heap w !! q) ∧
    (∃ s x, heap w' !! m =
              upd_position (Vector3.setX x) ∘ upd_scale (λ _, s)
                <$> heap w !! m) ∧
    (∃ s x, heap w' !! i =
              upd_position (Vector3.setX x) ∘ upd_scale (λ _, s)
                <$> heap w !! i) ∧
    (∃ a y, heap w' !! l =
              upd_position (Vector3.setY y) ∘ set_intensity a
                <$> heap w !! l) ∧
    this w' = set_flameTime (flameTime (this w')) (this w) ∧
    requests w' = requests w.
Proof.
  intros Hreach Hc.
  destruct (reachable_loaded _ _ Hreach Hc) as (c & g & m & i & l & Hl).
  destruct (animate_loaded Math_sin deltaTime w c g m i l Hl)
    as (om & oi & ol & Hm & Hi & Hol & Hrun).
  destruct Hl as (Ec & Eg & Em & Ei & El & Hnd & _).
  rewrite !NoDup_cons, !not_elem_of_cons in Hnd.
  destruct Hnd as ((_ & Hcm & Hci & Hcl & _) & (Hgm & Hgi & Hgl & _)
                   & (Hmi & Hml & _) & (Hil & _) & _).
  eexists _, c, g, m, i, l. split; [exact Hrun|]. cbn.
  do 5 (split; [done|]).
  split; [by rewrite !lookup_insert_ne by done|].
  split; [by rewrite !lookup_insert_ne by done|].
  split.
  { intros q Hq. rewrite !not_elem_of_cons in Hq.
    destruct Hq as (Hqm & Hqi & Hql & _). by rewrite !lookup_insert_ne. }
  split.
  { eexists _, _.
    by rewrite lookup_insert_ne, lookup_insert_ne, lookup_insert_eq, Hm. }
  split.
  { eexists _, _. by rewrite lookup_insert_ne, lookup_insert_eq, Hi. }
  split.
  { eexists _, _. by rewrite lookup_insert_eq, Hol. }
  done.
Qed.

(** C10. [removeCandle] keeps the elapsed time, and so does a load that
    follows it: the first [animate(deltaTime)] after the reload brings the
    elapsed time to what it was before the removal plus [deltaTime]. *)
Theorem removeCandle_keeps_flameTime
    Math_sin fuel options gltf_scene deltaTime w w1 id w2 w3 w4 :
  removeCandle w = Some (tt, w1) →
  loadCandle options w1 = Some (id, w2) →
  loader_callback fuel id (Loaded gltf_scene) w2 = Some (tt, w3) →
  animate Math_sin deltaTime w3 = Some (tt, w4) →
  flameTime (this w1) = flameTime (this w) ∧
  flameTime (this w3) = flameTime (this w) ∧
  flameTime (this w4) =
    (flameTime (this w) + default 0.016 deltaTime)%float.
Proof.
  intros (_ & _ & Ht1 & _)%removeCandle_spec [= _ <-]
         (rq & _ & Hload)%loader_callback_Loaded_inv Hanim.
  pose proof (inv_onLoad _ _ _ _ _ _ _ Hload) as Hinv.
  apply onLoad_spec in Hload as (g & m & i & l & Et & _).
  cbn in Et. split; [done|]. split; [by rewrite Et, <-Ht1|].
  destruct Hinv as [_ [(Hc & _)|(c' & g' & m' & i' & l' & Hl)]].
  { by rewrite Et in Hc. }
  destruct (animate_loaded Math_sin deltaTime w3 _ _ _ _ _ Hl)
    as (om & oi & ol & _ & _ & _ & Hrun).
  cbv zeta in Hrun. rewrite Hrun in Hanim. injection Hanim as <-.
  cbn. by rewrite Et, <-Ht1.
Qed.

(** * Further properties *)


Lemma modify_requests r f u w w' :
  modify r f w = Some (u, w') → requests w' = requests w.
Proof. by intros (o & _ & ->)%modify_inv. Qed.

Lemma animate_requests Math_sin deltaTime u w w' :
  animate Math_sin deltaTime w = Some (u, w') → requests w' = requests w.
Proof.
  unfold animate. intros H. minv H.
  destruct (_ || _); [by apply ret_inv in H as [_ <-]|].
  minv H.
  assert (requests w0 = requests w) as E0.
  { destruct (mainFlame _); [|by apply ret_inv in Hs as [_ <-]].
    apply bind_inv in Hs as (? & v & H1 & H2).
    apply modify_requests in H1, H2. by rewrite H2, H1. }
  assert (requests w1 = requests w0) as E1.
  { destruct (innerFlame _); [|by apply ret_inv in Hs0 as [_ <-]].
    apply bind_inv in Hs0 as (? & v & H1 & H2).
    apply modify_requests in H1, H2. by rewrite H2, H1. }
  rewrite <-E0, <-E1.
  destruct (flameLight _); [|by apply ret_inv in H as [_ <-]].
  apply bind_inv in H as (? & v & H1 & H2).
  apply bind_inv in H2 as (? & v' & [_ ->]%deref_inv & H2).
  apply modify_requests in H1, H2. by rewrite H2, H1.
Qed.

Lemma updatePosition_requests x y z u w w' :
  updatePosition x y z w = Some (u, w') → requests w' = requests w.
Proof.
  unfold updatePosition. intros H. minv H.
  destruct (candle _); [by apply modify_requests in H|].
  by apply ret_inv in H as [_ <-].
Qed.

(** X2. Between a [loadCandle] call and the loader's answer anything may be
    called: the request keeps its path and its closure, and its promise
    stays pending until the loader delivers or fails that very request. *)
Theorem request_survives_calls Math_sin c w w' id rq :
  run_call Math_sin c w = Some (tt, w') →
  requests w !! id = Some rq →
  ∃ rq', requests w' !! id = Some rq' ∧
         url rq' = url rq ∧ closure rq' = closure rq ∧
         (promise rq' = promise rq ∨
          promise rq = Pending ∧
          ((∃ fuel r, c = CallLoader fuel id (Loaded r)
                      ∧ promise rq' = Fulfilled r)
           ∨ ∃ fuel e, c = CallLoader fuel id (Failed e)
                       ∧ promise rq' = Rejected e)).
Proof.
  intros H Hrq.
  assert (∀ id0 s rq0,
            requests w !! id0 = Some rq0 →
            requests w' = match promise rq0 with
                          | Pending =>
                              <[id0 := mkRequest (url rq0) (closure rq0) s]>
                                (requests w)
                          | _ => requests w
                          end →
            ∃ rq', requests w' !! id = Some rq' ∧
                   url rq' = url rq ∧ closure rq' = closure rq ∧
                   (promise rq' = promise rq ∨
                    promise rq = Pending ∧ id0 = id ∧ promise rq' = s))
    as Hsettle.
  { intros id0 s rq0 Hrq0 ->.
    destruct (promise rq0) eqn:Hp; [|by exists rq; auto..].
    destruct (decide (id0 = id)) as [->|Hne].
    - rewrite Hrq in Hrq0. injection Hrq0 as <-.
      rewrite lookup_insert_eq. eexists. repeat split. by right.
    - rewrite lookup_insert_ne by done. exists rq. auto. }
  destruct c as [options|fuel id0 ev|x y z|dt|]; cbn in H.
  - minv H. apply ret_inv in H as [_ ->]. injection Hs as _ <-. cbn.
    exists rq. rewrite lookup_insert_ne; [by auto|].
    intros <-.
    by rewrite (not_elem_of_dom_1 _ _ (is_fresh (dom (requests w)))) in Hrq.
  - unfold loader_callback in H. minv H.
    apply get_request_inv in Hs as [Hrq0 ->].
    destruct ev as [r|loaded total|e].
    + apply onLoad_spec in H
        as (_ & _ & _ & _ & _ & _ & _ & _ & _ & _ & _ & _ & _ & _ & rq0
            & Hrq0' & Eq).
      destruct (Hsettle _ _ _ Hrq0' Eq)
        as (rq' & ? & ? & ? & [?|(? & -> & ?)]); exists rq';
        repeat (split; [done|]); [by left|].
      right. split; [done|]. left. by exists fuel, r.
    + apply ret_inv in H as [_ <-]. exists rq. auto.
    + apply settle_inv in H as (_ & _ & rq0 & Hrq0' & Eq).
      destruct (Hsettle _ _ _ Hrq0' Eq)
        as (rq' & ? & ? & ? & [?|(? & -> & ?)]); exists rq';
        repeat (split; [done|]); [by left|].
      right. split; [done|]. right. by exists fuel, e.
  - apply updatePosition_requests in H. rewrite H. exists rq. auto.
  - apply animate_requests in H. rewrite H. exists rq. auto.
  - apply removeCandle_spec in H as (_ & _ & _ & _ & _ & -> & _).
    exists rq. auto.
Qed.

Lemma bind_mono_r {A B} (m : M A) (k1 k2 : A → M B) w x :
  (m ≫= k1) w = Some x →
  (∀ a w1, k1 a w1 = Some x → k2 a w1 = Some x) →
  (m ≫= k2) w = Some x.
Proof.
  destruct x as [b w2]. intros (a & w1 & Hm & Hk)%bind_inv Hmono.
  erewrite bind_run by done. auto.
Qed.

Lemma bind_mono_l {A B} (m1 m2 : M A) (k : A → M B) w x :
  (m1 ≫= k) w = Some x →
  (∀ y, m1 w = Some y → m2 w = Some y) →
  (m2 ≫= k) w = Some x.
Proof.
  destruct x as [b w2]. intros (a & w1 & Hm & Hk)%bind_inv Hmono.
  erewrite bind_run by eauto. done.
Qed.

Lemma forM__mono {A} (f g : A → M unit) l w x :
  (∀ a w y, f a w = Some y → g a w = Some y) →
  forM_ l f w = Some x → forM_ l g w = Some x.
Proof.
  intros Hfg. revert w. induction l as [|a l IH]; intros w; cbn; [done|].
  intros H. eapply bind_mono_l; [|by apply Hfg].
  eapply bind_mono_r; [done|]. auto.
Qed.

(** A traversal that completes within a budget completes, with the same
    result, within a larger one. *)
Lemma Object3D_traverse_fuel callback n fuel r w x :
  n ≤ fuel →
  Object3D_traverse n callback r w = Some x →
  Object3D_traverse fuel callback r w = Some x.
Proof.
  revert fuel r w x. induction n as [|n IH]; intros fuel r w x Hle; [done|].
  destruct fuel as [|fuel]; [lia|]. cbn [Object3D_traverse]. intros H.
  eapply bind_mono_r; [exact H|]. intros ? w1 H1.
  eapply bind_mono_r; [exact H1|]. intros o w2.
  apply forM__mono. intros c w3 y. apply IH. lia.
Qed.

Lemma onLoad_fuel n fuel id pl r w x :
  n ≤ fuel →
  onLoad n id pl r w = Some x → onLoad fuel id pl r w = Some x.
Proof.
  intros Hle. unfold onLoad. cbv zeta. revert w.
  do 8 (let H := fresh in
        intros ? H; eapply bind_mono_r; [exact H|]; clear H; intros ?).
  intros v H. eapply bind_mono_l; [exact H|]. intros y.
  by apply Object3D_traverse_fuel.
Qed.

(** X3. On a live scene, a model the loader delivers as a live, detached
    root over live, acyclic descendants is taken in to completion as soon
    as the recursion budget reaches the depth of the model, and a larger
    budget changes nothing in the outcome. *)
Theorem load_success_completes n fuel id rq gltf_scene w :
  requests w !! id = Some rq →
  is_Some (heap w !! scene (this w)) →
  asset_ok n (heap w) gltf_scene →
  n ≤ fuel →
  ∃ w', loader_callback n id (Loaded gltf_scene) w = Some (tt, w') ∧
        loader_callback fuel id (Loaded gltf_scene) w = Some (tt, w') ∧
        candle (this w') = Some gltf_scene ∧
        is_Some (flame (this w')) ∧ is_Some (flameLight (this w')).
Proof.
  intros Hrq Hsc Hasset Hle.
  destruct (onLoad_succeeds n id (closure rq) gltf_scene w) as [w' Hrun];
    [done | done | by eexists |].
  assert (∀ k, (k = n ∨ k = fuel) →
               loader_callback k id (Loaded gltf_scene) w = Some (tt, w'))
    as Hboth.
  { intros k Hk. unfold loader_callback.
    erewrite bind_run by (unfold get_request; by rewrite Hrq).
    destruct Hk as [->| ->]; [done|]. by eapply onLoad_fuel. }
  exists w'. split; [auto|]. split; [auto|].
  apply onLoad_spec in Hrun as (g & m & i & l & -> & _). by cbn.
Qed.

(** X4. While a candle is loaded, [updatePosition(x, y, z)] moves the candle
    to (x, y, z) and touches nothing else: the flame group and the light stay
    where they are. *)
Theorem updatePosition_moves_candle_only Math_sin x y z w :
  reachable Math_sin w →
  is_Some (candle (this w)) →
  ∃ w' c oc,
    updatePosition x y z w = Some (tt, w') ∧
    candle (this w) = Some c ∧ heap w !! c = Some oc ∧
    heap w' !! c = Some (upd_position (λ _, Vector3.mk x y z) oc) ∧
    (∀ q, q ≠ c → heap w' !! q = heap w !! q) ∧
    (∀ g, flame (this w) = Some g → heap w' !! g = heap w !! g) ∧
    (∀ l, flameLight (this w) = Some l → heap w' !! l = heap w !! l) ∧
    this w' = this w ∧ requests w' = requests w.
Proof.
  intros Hreach Hc.
  destruct (reachable_loaded _ _ Hreach Hc)
    as (c & g & m & i & l & Ec & Eg & _ & _ & El & Hnd & Hlive).
  apply Forall_cons in Hlive as [[oc Hoc] _].
  rewrite !NoDup_cons, !not_elem_of_cons in Hnd.
  destruct Hnd as ((Hcg & _ & _ & Hcl & _) & _).
  exists (set_heap (<[c := upd_position (Vector3.set x y z) oc]> (heap w)) w),
    c, oc.
  split.
  { unfold updatePosition. erewrite bind_run by reflexivity. rewrite Ec.
    by apply modify_run. }
  cbn. split; [done|]. split; [done|].
  split; [by rewrite lookup_insert_eq|].
  split; [by intros q Hq; rewrite lookup_insert_ne|].
  split; [by intros ? [= <-]%(eq_trans (eq_sym Eg)); rewrite lookup_insert_ne|].
  split; [by intros ? [= <-]%(eq_trans (eq_sym El)); rewrite lookup_insert_ne|].
  done.
Qed.

(** What a successful load does to the scene graph. *)
Lemma onLoad_attaches fuel id pl gltf_scene u w sco o w' :
  heap w !! scene (this w) = Some sco →
  heap w !! gltf_scene = Some o →
  parent o = None →
  gltf_scene ≠ scene (this w) →
  onLoad fuel id pl gltf_scene w = Some (u, w') →
  ∃ g l sc',
    heap w !! g = None ∧ heap w !! l = None ∧
    candle (this w') = Some gltf_scene ∧
    flame (this w') = Some g ∧ flameLight (this w') = Some l ∧
    scene (this w') = scene (this w) ∧
    heap w' !! scene (this w) = Some sc' ∧
    children sc' = children sco ++ [gltf_scene; g; l] ∧
    parent <$> heap w' !! gltf_scene = Some (Some (scene (this w))) ∧
    parent <$> heap w' !! g = Some (Some (scene (this w))) ∧
    parent <$> heap w' !! l = Some (Some (scene (this w))).
Proof.
  intros Hsc Ho Hpar Hne H.
  apply onLoad_inv in H
    as (o' & w3 & w4 & w5 & c5 & Ho' & Hag & Hadd & Hflame & _ & Hsettle).
  rewrite Ho in Ho'. injection Ho' as <-.
  apply agree_placing_links in Hag.
  set (w2 := mkWorld _ _ _) in Hag.
  assert (heap w2 !! gltf_scene = Some
            (upd_rotation (Euler.setY (pl_rotation pl))
               (upd_scale (Vector3.set (pl_scale pl) (pl_scale pl)
                                       (pl_scale pl))
                  (upd_position (Vector3.set (pl_x pl) (pl_y pl) (pl_z pl))
                     o)))) as Ho2 by apply lookup_insert_eq.
  assert (heap w2 !! scene (this w) = Some sco) as Hsc2.
  { subst w2. cbn. by rewrite lookup_insert_ne. }
  assert (∀ q, is_Some (heap w !! q) → is_Some (heap w3 !! q)) as Hmono.
  { intros q Hq. apply (agree_live _ _ _ _ Hag). subst w2. cbn.
    apply lookup_insert_is_Some. destruct (decide (gltf_scene = q)); auto. }
  destruct (agree_lookup _ _ _ _ _ Hag Ho2) as (o3 & Ho3 & [= Hp3 _]).
  destruct (agree_lookup _ _ _ _ _ Hag Hsc2) as (sc3 & Hsc3 & [= _ Hc3]).
  destruct Hag as (Et3 & _). subst w2. cbn in Et3.
  rewrite (Object3D_add_run _ _ sc3 o3) in Hadd by (done || congruence).
  injection Hadd as <-.
  destruct (createFlame_run (pl_x pl) (pl_y pl) (pl_z pl) (pl_scale pl)
              (set_heap
                 (<[scene (this w) := upd_children (λ l, l ++ [gltf_scene]) sc3]>
                    (<[gltf_scene := set_parent (Some (scene (this w))) o3]>
                       (heap w3))) w3)
              (upd_children (λ l, l ++ [gltf_scene]) sc3))
    as (w5' & g & m & i & l & Hrun & Et5 & _ & _ & Hfresh & Hg & _ & _ & Hl
        & Hs & Hframe).
  { cbn. rewrite Et3. cbn. apply lookup_insert_eq. }
  rewrite Hflame in Hrun. injection Hrun as <-.
  apply settle_inv in Hsettle as (Eh & Et & _).
  cbn in Et5, Hg, Hl, Hs, Hframe, Hfresh.
  rewrite Et3 in Et5, Hg, Hl, Hs, Hframe. cbn in Et5, Hg, Hl, Hs, Hframe.
  rewrite !Forall_cons, !lookup_insert_None in Hfresh.
  destruct Hfresh as (((Hg3 & _) & _) & _ & _ & ((Hl3 & _) & _) & _).
  exists g, l, (upd_children (λ cs, cs ++ [g; l])
                  (upd_children (λ l, l ++ [gltf_scene]) sc3)).
  rewrite Et, Et5, Eh. cbn.
  split. { apply eq_None_not_Some. intros Hq%Hmono. by rewrite Hg3 in Hq. }
  split. { apply eq_None_not_Some. intros Hq%Hmono. by rewrite Hl3 in Hq. }
  do 4 (split; [done|]). split; [done|].
  split; [by rewrite Hc3, <-app_assoc|].
  split.
  { rewrite Hframe; [|by rewrite lookup_insert_ne, lookup_insert_eq|done].
    by rewrite lookup_insert_ne, lookup_insert_eq. }
  by rewrite Hg, Hl.
Qed.

(** X5. A successful load attaches to the scene, in this order, the model,
    the flame group and the light: they become the last three children of
    the scene and the scene becomes their parent.  The model is taken to be
    a detached object other than the scene. *)
Theorem load_attaches_to_scene fuel id gltf_scene w sco o w' :
  heap w !! scene (this w) = Some sco →
  heap w !! gltf_scene = Some o →
  parent o = None →
  gltf_scene ≠ scene (this w) →
  loader_callback fuel id (Loaded gltf_scene) w = Some (tt, w') →
  ∃ g l sc',
    flame (this w') = Some g ∧ flameLight (this w') = Some l ∧
    scene (this w') = scene (this w) ∧
    heap w' !! scene (this w) = Some sc' ∧
    children sc' = children sco ++ [gltf_scene; g; l] ∧
    parent <$> heap w' !! gltf_scene = Some (Some (scene (this w))) ∧
    parent <$> heap w' !! g = Some (Some (scene (this w))) ∧
    parent <$> heap w' !! l = Some (Some (scene (this w))).
Proof.
  intros Hsc Ho Hpar Hne (rq & _ & H)%loader_callback_Loaded_inv.
  destruct (onLoad_attaches _ _ _ _ _ _ _ _ _ Hsc Ho Hpar Hne H)
    as (g & l & sc' & _ & _ & _ & Hrest).
  by exists g, l, sc'.
Qed.

Lemma remove_first_not_elem c (l : list ref) : c ∉ l → remove_first c l = l.
Proof.
  induction l as [|a l IH]; [done|]. intros [Hne Hl]%not_elem_of_cons.
  cbn. rewrite decide_False by done. by rewrite IH.
Qed.

Lemma elem_of_remove_first_ne x c (l : list ref) :
  x ≠ c → x ∈ remove_first c l ↔ x ∈ l.
Proof.
  intros Hne. induction l as [|a l IH]; [done|]. cbn.
  destruct (decide (a = c)) as [->|].
  - rewrite elem_of_cons. split; [auto|]. by intros [->|].
  - by rewrite !elem_of_cons, IH.
Qed.

Lemma remove_first_app c (l1 l2 : list ref) :
  c ∉ l1 → remove_first c (l1 ++ c :: l2) = l1 ++ l2.
Proof.
  induction l1 as [|a l1 IH]; cbn.
  - by rewrite decide_True.
  - intros [Hne Hl]%not_elem_of_cons. rewrite decide_False by done.
    by rewrite IH.
Qed.

(** [p.remove(c)], object by object. *)
Lemma Object3D_remove_spec p c po co w :
  heap w !! p = Some po → heap w !! c = Some co → c ≠ p →
  ∃ w', Object3D_remove p c w = Some (tt, w') ∧
    this w' = this w ∧ requests w' = requests w ∧
    heap w' !! p = Some (upd_children (remove_first c) po) ∧
    heap w' !! c = Some (if bool_decide (c ∈ children po)
                         then set_parent None co else co) ∧
    ∀ q, q ≠ p → q ≠ c → heap w' !! q = heap w !! q.
Proof.
  intros Hp Hc Hne. unfold Object3D_remove.
  erewrite bind_run by by apply deref_run.
  case_bool_decide as Hin.
  - erewrite bind_run by by apply modify_run.
    erewrite modify_run by (cbn; by rewrite lookup_insert_ne).
    eexists. split; [done|]. cbn. do 2 (split; [done|]).
    split; [by rewrite lookup_insert_eq|].
    split; [by rewrite lookup_insert_ne, lookup_insert_eq|].
    intros q ? ?. by rewrite !lookup_insert_ne.
  - exists w. do 3 (split; [done|]). split; [|done].
    rewrite Hp. f_equal. destruct po. unfold upd_children. cbn in *.
    by rewrite remove_first_not_elem.
Qed.

(** What [removeCandle] does to the scene graph. *)
Lemma removeCandle_graph w c g m i l sco :
  loaded w c g m i l →
  heap w !! scene (this w) = Some sco →
  scene (this w) ∉ [c; g; l] →
  ∃ w',
    removeCandle w = Some (tt, w') ∧
    nothing_loaded w' ∧
    heap w' !! scene (this w) =
      Some (upd_children
              (λ cs, remove_first l (remove_first g (remove_first c cs))) sco) ∧
    (∀ r, r ∈ [c; g; l] → r ∈ children sco →
          parent <$> heap w' !! r = Some None) ∧
    (∀ q, q ∉ [scene (this w); c; g; l] → heap w' !! q = heap w !! q).
Proof.
  intros (Ec & Eg & _ & _ & El & Hnd & Hlive) Hsc Hsc3.
  rewrite !NoDup_cons, !not_elem_of_cons in Hnd.
  destruct Hnd as ((Hcg & _ & _ & Hcl & _) & (_ & _ & Hgl & _) & _).
  rewrite !not_elem_of_cons in Hsc3. destruct Hsc3 as (Hsc_c & Hsc_g & Hsc_l & _).
  rewrite !Forall_cons in Hlive.
  destruct Hlive as ([oc Hoc] & [og Hog] & _ & _ & [ol Hol] & _).
  set (sc := scene (this w)) in *.
  destruct (Object3D_remove_spec sc c sco oc w) as
    (w1 & Hrun1 & Et1 & Eq1 & Hs1 & Hc1 & Hf1); [done..|].
  set (v1 := set_this (set_candle None (this w1)) w1).
  assert (heap v1 !! g = Some og) as Hog1 by (cbn; by rewrite Hf1).
  destruct (Object3D_remove_spec sc g _ og v1 Hs1 Hog1) as
    (w2 & Hrun2 & Et2 & Eq2 & Hs2 & Hg2 & Hf2); [done|].
  set (v2 := set_this (set_flame None (this w2)) w2).
  assert (heap v2 !! l = Some ol) as Hol2.
  { cbn. rewrite Hf2 by done. cbn. by rewrite Hf1. }
  destruct (Object3D_remove_spec sc l _ ol v2 Hs2 Hol2) as
    (w3 & Hrun3 & Et3 & Eq3 & Hs3 & Hl3 & Hf3); [done|].
  exists (set_this (set_flameLight None (this w3)) w3).
  split.
  { unfold removeCandle.
    erewrite bind_run by reflexivity. rewrite Ec.
    rewrite ?bind_assoc. erewrite bind_run by reflexivity. fold sc.
    rewrite ?bind_assoc. erewrite bind_run by exact Hrun1.
    rewrite ?bind_assoc. erewrite bind_run by reflexivity. fold v1.
    erewrite bind_run by reflexivity.
    replace (flame (this v1)) with (Some g) by (cbn; by rewrite Et1).
    rewrite ?bind_assoc. erewrite bind_run by reflexivity.
    replace (scene (this v1)) with sc by (cbn; by rewrite Et1).
    rewrite ?bind_assoc. erewrite bind_run by exact Hrun2.
    rewrite ?bind_assoc. erewrite bind_run by reflexivity. fold v2.
    erewrite bind_run by reflexivity.
    replace (flameLight (this v2)) with (Some l)
      by (cbn; rewrite Et2; cbn; by rewrite Et1).
    erewrite bind_run by reflexivity.
    replace (scene (this v2)) with sc
      by (cbn; rewrite Et2; cbn; by rewrite Et1).
    erewrite bind_run by exact Hrun3. reflexivity. }
  split.
  { unfold nothing_loaded. cbn. rewrite Et3. cbn. by rewrite Et2. }
  split; [by cbn; rewrite Hs3|].
  split.
  { intros r Hr Hin. cbn.
    assert (g ∈ remove_first c (children sco) ↔ g ∈ children sco) as Hing
      by by apply elem_of_remove_first_ne.
    assert (l ∈ remove_first g (remove_first c (children sco))
            ↔ l ∈ children sco) as Hinl
      by by rewrite !elem_of_remove_first_ne.
    rewrite !elem_of_cons in Hr.
    destruct Hr as [->|[->|[->|Hr]]]; [| | |by apply elem_of_nil in Hr].
    - rewrite Hf3, Hf2 by done. cbn. rewrite Hc1.
      by rewrite bool_decide_eq_true_2.
    - rewrite Hf3 by done. cbn. rewrite Hg2. cbn.
      by rewrite bool_decide_eq_true_2 by by apply Hing.
    - rewrite Hl3. cbn. by rewrite bool_decide_eq_true_2 by by apply Hinl. }
  intros q Hq. rewrite !not_elem_of_cons in Hq.
  destruct Hq as (? & ? & ? & ? & _). cbn.
  rewrite Hf3 by done. cbn. rewrite Hf2 by done. cbn. by rewrite Hf1.
Qed.

(** X6. While a candle is loaded, [removeCandle()] takes the model, the
    flame group and the light out of the children of the scene (one
    occurrence of each, the first), leaves those of them that were children
    without a parent, clears the three fields, and touches no other object.
    The scene is taken to be none of the three. *)
Theorem removeCandle_detaches w c g m i l sco :
  loaded w c g m i l →
  heap w !! scene (this w) = Some sco →
  scene (this w) ∉ [c; g; l] →
  ∃ w' sc',
    removeCandle w = Some (tt, w') ∧
    nothing_loaded w' ∧
    heap w' !! scene (this w) = Some sc' ∧
    children sc' =
      remove_first l (remove_first g (remove_first c (children sco))) ∧
    (∀ r, r ∈ [c; g; l] → r ∈ children sco →
          parent <$> heap w' !! r = Some None) ∧
    (∀ q, q ∉ [scene (this w); c; g; l] → heap w' !! q = heap w !! q).
Proof.
  intros Hl Hsc Hne.
  destruct (removeCandle_graph w c g m i l sco Hl Hsc Hne)
    as (w' & Hrun & Hn & Hs & Hrest).
  exists w', (upd_children
                (λ cs, remove_first l (remove_first g (remove_first c cs)))
                sco).
  by repeat (split; [done|]).
Qed.

(** X7. Loading and then removing leaves the scene with the children it
    had: on a scene whose children are live objects, the model not among
    them, a successful load followed by [removeCandle()] completes, clears
    the controller, and restores the list of children of the scene. *)
Theorem load_then_remove_restores_scene fuel id gltf_scene w sco o w' :
  heap w !! scene (this w) = Some sco →
  heap w !! gltf_scene = Some o →
  parent o = None →
  gltf_scene ≠ scene (this w) →
  gltf_scene ∉ children sco →
  Forall (λ q, is_Some (heap w !! q)) (children sco) →
  loader_callback fuel id (Loaded gltf_scene) w = Some (tt, w') →
  ∃ w'' sc'',
    removeCandle w' = Some (tt, w'') ∧
    nothing_loaded w'' ∧
    heap w'' !! scene (this w) = Some sc'' ∧
    children sc'' = children sco.
Proof.
  intros Hsc Ho Hpar Hne Hnin Hlive (rq & _ & H)%loader_callback_Loaded_inv.
  pose proof (inv_onLoad _ _ _ _ _ _ _ H) as [_ Hinv].
  destruct (onLoad_attaches _ _ _ _ _ _ _ _ _ Hsc Ho Hpar Hne H)
    as (g & l & sc' & Hg & Hl & Ec & Eg & El & Es & Hsc' & Hch & _).
  destruct Hinv as [(Hc & _)|(c' & g' & m & i & l' & Hloaded)];
    [congruence|].
  pose proof Hloaded as (Ec' & Eg' & _ & _ & El' & _).
  rewrite Ec in Ec'. rewrite Eg in Eg'. rewrite El in El'.
  injection Ec' as <-. injection Eg' as <-. injection El' as <-.
  rewrite Forall_forall in Hlive.
  assert (g ∉ children sco) as Hgn.
  { intros [? Hq]%Hlive. by rewrite Hg in Hq. }
  assert (l ∉ children sco) as Hln.
  { intros [? Hq]%Hlive. by rewrite Hl in Hq. }
  destruct (removeCandle_graph w' gltf_scene g m i l sc' Hloaded)
    as (w'' & Hrun & Hn & Hs & _).
  { by rewrite Es. }
  { rewrite Es, !not_elem_of_cons. repeat split; [done| | |apply not_elem_of_nil].
    - intros <-. by rewrite Hsc in Hg.
    - intros <-. by rewrite Hsc in Hl. }
  rewrite Es in Hs. eexists w'', _. do 3 (split; [done|]).
  cbn. rewrite Hch.
  rewrite (remove_first_app _ _ [g; l]) by done.
  rewrite (remove_first_app _ _ [l]) by done.
  rewrite (remove_first_app _ _ []) by done.
  apply app_nil_r.
Qed.


(** * The properties on the small scene *)

Lemma example_loaded_reachable : reachable example_sin example_loaded.
Proof.
  apply (reach_call _ example_requested
           (CallLoader 2 0 (Loaded example_root))).
  - apply (reach_call _ example_world (CallLoadCandle example_options)).
    + apply reach_initial. by eexists.
    + by vm_compute.
  - by vm_compute.
Qed.

Lemma loadCandle_places_model_witness :
  promise <$> requests example_loaded !! 0 = Some (Fulfilled example_root) ∧
  candle (this example_loaded) = Some example_root ∧
  ∃ o, heap example_loaded !! example_root = Some o ∧
       position o = Vector3.mk 1 0 2 ∧
       scale o = Vector3.mk 0.2 0.2 0.2 ∧
       Euler.y (rotation o) = 1.5708%float.
Proof.
  apply (loadCandle_places_model 2 0 example_options example_root
           example_requested example_loaded); by vm_compute.
Defined.

Lemma loadCandle_places_flame_witness :
  ∃ g l og ol,
    flame (this example_loaded) = Some g ∧
    heap example_loaded !! g = Some og ∧
    flameLight (this example_loaded) = Some l ∧
    heap example_loaded !! l = Some ol ∧
    position og = Vector3.mk 1 (0 + 17 * 0.2) 2 ∧
    scale og = Vector3.mk (2 * 0.2) (2 * 0.2) (2 * 0.2) ∧
    position ol = Vector3.mk 1 (0 + 17 * 0.2 + 0.5) 2.
Proof.
  apply (loadCandle_places_flame 2 0 example_options example_root
           example_requested example_loaded); by vm_compute.
Defined.

Lemma load_failure_leaves_no_state_witness :
  ∃ w1 id' w2 w3,
    loader_callback 2 0 (Failed "404") example_requested = Some (tt, w1) ∧
    promise <$> requests w1 !! 0 = Some (Rejected "404") ∧
    nothing_loaded w1 ∧
    loadCandle example_options w1 = Some (id', w2) ∧
    loader_callback 2 id' (Loaded example_root) w2 = Some (tt, w3) ∧
    promise <$> requests w3 !! id' = Some (Fulfilled example_root) ∧
    candle (this w3) = Some example_root.
Proof.
  destruct (load_failure_leaves_no_state 2 0 "404" example_requested
              (mkRequest candle_url (placement example_options) Pending))
    as (w1 & Hrun & Hrej & Et & Eh & Hn & Hnext); [by vm_compute..|].
  destruct (Hnext 2 example_options example_root)
    as (id' & w2 & w3 & Hcall & Hload & Hful & Hc & _).
  { by eexists. }
  { split; [|by eexists].
    eexists. split; [by vm_compute|]. apply Forall_cons. split; [|done].
    eexists. split; [by vm_compute|]. done. }
  exists w1, id', w2, w3.
  split; [done|]. split; [done|]. split; [by apply Hn; vm_compute|]. done.
Defined.

Lemma flame_and_light_iff_candle_witness :
  (is_Some (flame (this example_loaded))
   ↔ is_Some (candle (this example_loaded))) ∧
  (is_Some (flameLight (this example_loaded))
   ↔ is_Some (candle (this example_loaded))).
Proof.
  exact (flame_and_light_iff_candle example_sin example_loaded
           example_loaded_reachable).
Defined.

Lemma example_loaded_candle : is_Some (candle (this example_loaded)).
Proof. exists example_root. by vm_compute. Qed.

Lemma animate_flickers_flames_witness :
  let flicker := (example_sin (0.5 * 8) * 0.03 + example_sin (0.5 * 12.5) * 0.02
                  + example_sin (0.5 * 20) * 0.015)%float in
  ∃ w' m i om oi,
    animate example_sin (Some 0.5%float) example_loaded = Some (tt, w') ∧
    flameTime (this w') = 0.5%float ∧
    mainFlame (this w') = Some m ∧ heap w' !! m = Some om ∧
    innerFlame (this w') = Some i ∧ heap w' !! i = Some oi ∧
    scale om = Vector3.mk (1 + flicker) (1 + flicker) (1 + flicker) ∧
    Vector3.x (position om) = (example_sin (0.5 * 5) * 0.02)%float ∧
    scale oi = Vector3.mk (1 + flicker * 1.2) (1 + flicker * 1.2)
                 (1 + flicker * 1.2) ∧
    Vector3.x (position oi) = (example_sin (0.5 * 6) * 0.015)%float.
Proof.
  exact (animate_flickers_flames example_sin (Some 0.5%float)
           example_loaded example_loaded_reachable example_loaded_candle).
Defined.

Lemma animate_flickers_light_witness :
  let flicker := (example_sin (0.5 * 8) * 0.03 + example_sin (0.5 * 12.5) * 0.02
                  + example_sin (0.5 * 20) * 0.015)%float in
  let flicker' := (example_sin (0.75 * 8) * 0.03
                   + example_sin (0.75 * 12.5) * 0.02
                   + example_sin (0.75 * 20) * 0.015)%float in
  ∃ w' w'' l ol ol' ol'',
    animate example_sin (Some 0.5%float) example_loaded = Some (tt, w') ∧
    animate example_sin (Some 0.25%float) w' = Some (tt, w'') ∧
    flameLight (this example_loaded) = Some l ∧
    heap example_loaded !! l = Some ol ∧ heap w' !! l = Some ol' ∧
    heap w'' !! l = Some ol'' ∧
    intensity ol' = Some (1.5 + flicker * 2)%float ∧
    Vector3.y (position ol') = (Vector3.y (position ol) + flicker * 0.1)%float ∧
    intensity ol'' = Some (1.5 + flicker' * 2)%float ∧
    Vector3.y (position ol'') =
      (Vector3.y (position ol) + flicker * 0.1 + flicker' * 0.1)%float.
Proof.
  exact (animate_flickers_light example_sin (Some 0.5%float)
           (Some 0.25%float) example_loaded example_loaded_reachable
           example_loaded_candle).
Defined.

Lemma removeCandle_idempotent_witness :
  removeCandle example_removed = Some (tt, example_removed).
Proof.
  apply (removeCandle_idempotent example_animated). by vm_compute.
Defined.

Lemma after_removeCandle_calls_do_nothing_witness :
  run_calls example_sin
    [CallAnimate None; CallUpdatePosition 5 5 5; CallAnimate (Some 1%float)]
    example_removed
  = Some (tt, example_removed).
Proof.
  apply (after_removeCandle_calls_do_nothing example_sin example_animated).
  - by vm_compute.
  - by repeat constructor.
Defined.

Lemma animate_frame_witness :
  ∃ w' c g m i l,
    animate example_sin (Some 0.5%float) example_loaded = Some (tt, w') ∧
    candle (this example_loaded) = Some c ∧
    flame (this example_loaded) = Some g ∧
    mainFlame (this example_loaded) = Some m ∧
    innerFlame (this example_loaded) = Some i ∧
    flameLight (this example_loaded) = Some l ∧
    heap w' !! c = heap example_loaded !! c ∧
    heap w' !! g = heap example_loaded !! g ∧
    (∀ q, q ∉ [m; i; l] → heap w' !! q = heap example_loaded !! q) ∧
    (∃ s x, heap w' !! m =
              upd_position (Vector3.setX x) ∘ upd_scale (λ _, s)
                <$> heap example_loaded !! m) ∧
    (∃ s x, heap w' !! i =
              upd_position (Vector3.setX x) ∘ upd_scale (λ _, s)
                <$> heap example_loaded !! i) ∧
    (∃ a y, heap w' !! l =
              upd_position (Vector3.setY y) ∘ set_intensity a
                <$> heap example_loaded !! l) ∧
    this w' = set_flameTime (flameTime (this w')) (this example_loaded) ∧
    requests w' = requests example_loaded.
Proof.
  exact (animate_frame example_sin (Some 0.5%float) example_loaded
           example_loaded_reachable example_loaded_candle).
Defined.

Lemma removeCandle_keeps_flameTime_witness :
  flameTime (this example_removed) = 0.5%float ∧
  flameTime (this example_reloaded) = 0.5%float ∧
  flameTime (this example_reanimated) = 0.75%float.
Proof.
  apply (removeCandle_keeps_flameTime example_sin 2 example_options
           example_root (Some 0.25%float) example_animated example_removed 1
           example_requested_again example_reloaded example_reanimated);
    by vm_compute.
Defined.


Lemma updatePosition_moves_candle_only_witness :
  ∃ w' c oc,
    updatePosition 5 6 7 example_loaded = Some (tt, w') ∧
    candle (this example_loaded) = Some c ∧
    heap example_loaded !! c = Some oc ∧
    heap w' !! c = Some (upd_position (λ _, Vector3.mk 5 6 7) oc) ∧
    (∀ q, q ≠ c → heap w' !! q = heap example_loaded !! q) ∧
    (∀ g, flame (this example_loaded) = Some g →
          heap w' !! g = heap example_loaded !! g) ∧
    (∀ l, flameLight (this example_loaded) = Some l →
          heap w' !! l = heap example_loaded !! l) ∧
    this w' = this example_loaded ∧ requests w' = requests example_loaded.
Proof.
  exact (updatePosition_moves_candle_only example_sin 5 6 7 example_loaded
           example_loaded_reachable example_loaded_candle).
Defined.

Lemma request_survives_calls_witness :
  ∃ rq', requests example_loaded !! 0 = Some rq' ∧
         url rq' = candle_url ∧ closure rq' = placement example_options.
Proof.
  destruct (request_survives_calls example_sin
              (CallLoader 2 0 (Loaded example_root))
              example_requested example_loaded 0
              (mkRequest candle_url (placement example_options) Pending))
    as (rq' & Hrq' & Hu & Hc & _); [by vm_compute..|].
  exists rq'. split; [exact Hrq'|]. split; [exact Hu|exact Hc].
Defined.

Lemma load_success_completes_witness :
  ∃ w', loader_callback 2 0 (Loaded example_root) example_requested
          = Some (tt, w') ∧
        loader_callback 7 0 (Loaded example_root) example_requested
          = Some (tt, w') ∧
        candle (this w') = Some example_root ∧
        is_Some (flame (this w')) ∧ is_Some (flameLight (this w')).
Proof.
  apply (load_success_completes 2 7 0
           (mkRequest candle_url (placement example_options) Pending)).
  - by vm_compute.
  - by eexists.
  - split; [|by eexists].
    eexists. split; [by vm_compute|]. apply Forall_cons. split; [|done].
    eexists. split; [by vm_compute|]. done.
  - lia.
Defined.

Lemma load_attaches_to_scene_witness :
  ∃ g l sc',
    flame (this example_loaded) = Some g ∧
    flameLight (this example_loaded) = Some l ∧
    scene (this example_loaded) = scene (this example_requested) ∧
    heap example_loaded !! scene (this example_requested) = Some sc' ∧
    children sc' = children new_Object3D ++ [example_root; g; l] ∧
    parent <$> heap example_loaded !! example_root
      = Some (Some (scene (this example_requested))) ∧
    parent <$> heap example_loaded !! g
      = Some (Some (scene (this example_requested))) ∧
    parent <$> heap example_loaded !! l
      = Some (Some (scene (this example_requested))).
Proof.
  apply (load_attaches_to_scene 2 0 example_root example_requested
           new_Object3D (upd_children (λ _, [example_mesh]) new_Group)
           example_loaded);
    first [by vm_compute | by cbn; constructor | cbn; apply not_elem_of_nil].
Defined.

Lemma example_animated_loaded :
  loaded example_animated example_root 4 5 6 7.
Proof. unfold loaded. apply (bool_decide_unpack _). by vm_compute. Qed.

Lemma removeCandle_detaches_witness :
  ∃ w' sc',
    removeCandle example_animated = Some (tt, w') ∧
    nothing_loaded w' ∧
    heap w' !! scene (this example_animated) = Some sc' ∧
    children sc' =
      remove_first 7%positive
        (remove_first 4%positive
           (remove_first example_root
              (children (upd_children (λ _, [example_root; 4; 7]%positive)
                           new_Object3D)))) ∧
    (∀ r, r ∈ [example_root; 4; 7]%positive →
          r ∈ children (upd_children (λ _, [example_root; 4; 7]%positive)
                          new_Object3D) →
          parent <$> heap w' !! r = Some None) ∧
    (∀ q, q ∉ [scene (this example_animated); example_root; 4; 7]%positive →
          heap w' !! q = heap example_animated !! q).
Proof.
  apply (removeCandle_detaches example_animated example_root 4 5 6 7
           (upd_children (λ _, [example_root; 4; 7]%positive) new_Object3D)
           example_animated_loaded).
  - by vm_compute.
  - apply (bool_decide_unpack _). by vm_compute.
Defined.

Lemma load_then_remove_restores_scene_witness :
  ∃ w'' sc'',
    removeCandle example_loaded = Some (tt, w'') ∧
    nothing_loaded w'' ∧
    heap w'' !! scene (this example_requested) = Some sc'' ∧
    children sc'' = children new_Object3D.
Proof.
  apply (load_then_remove_restores_scene 2 0 example_root example_requested
           new_Object3D (upd_children (λ _, [example_mesh]) new_Group)
           example_loaded);
    first [by vm_compute | by cbn; constructor | cbn; apply not_elem_of_nil].
Defined.
